(** * bitmagnet importer: the import session, its buffer and its batch persister

    A shallow embedding of [internal/importer/importer.go].  The session
    object [activeImport] is a record; every method that runs under the
    session mutex is one atomic transition on that record.  The storage layer
    ([dao]) and the processor queue ([processorPublisher]) are interfaces of
    the program: they are a type class [Backend] over an arbitrary world
    state, so every theorem holds for every storage and queue behaviour.

    The second part embeds the TMDB movie client of
    [internal/classifier/video/tmdb/movie.go] in the same way: its local
    search and the TMDB API are a type class [tmdb.Client], and what the
    sources do not hold of the packages it uses is the class [tmdb.Deps]. *)

From Stdlib Require Import ZArith List Lia.
From Stdlib Require Import Ascii DecimalString DecimalZ DecimalPos.
From stdpp Require Import base gmap strings list.
Import ListNotations.

Set Default Proof Using "Type".

(** ** Collaborating packages *)

Module protocol.
(** Modelled from the spec: package [internal/protocol] is not among the
    sources.  [ID] is the content fingerprint (an info hash), a fixed-width
    byte array in the program; here the sequence of its bytes. *)
Definition ID : Type := list Byte.byte.
End protocol.

Module model.
(** Modelled from the spec: the declarations of package [internal/model]
    are not among the sources.  Only the fields that [importer.go] reads or
    writes are kept, with Go's zero value of every type written out
    ([zero_*]), since [createTorrentModel] leaves [Hint] at its zero value
    when the item has no content type.  [Null A] is the [sql.Null*]-style
    wrapper of the package: a value and its validity flag. *)
Record Null (A : Type) := MkNull { null_value : A; Valid : bool }.
Arguments MkNull {A} _ _.
Arguments null_value {A} _.
Arguments Valid {A} _.

(** Modelled from the spec: [model.NullString] and its constructor, which
    yields a valid value. *)
Definition NullString := Null string.
Definition NewNullString (s : string) : NullString := MkNull s true.

(** Modelled from the spec: the content classification and the video
    attributes are string-typed enumerations, each with its nullable
    wrapper. *)
Definition ContentType := string.
Definition NullContentType := Null ContentType.
Definition NullVideoResolution := Null string.
Definition NullVideoSource := Null string.
Definition NullVideoCodec := Null string.
Definition NullVideo3d := Null string.
Definition NullVideoModifier := Null string.

(** Modelled from the spec: release metadata.  [Episodes] takes a season
    number to the set of its episode numbers. *)
Definition Year := Z.
Record Date := MkDate { date_year : Year; date_month : Z; date_day : Z }.
Definition Episodes := gmap Z (gset Z).

(** Modelled from the spec: the status of a torrent whose files are not
    known yet. *)
Definition FilesStatus := string.
Definition FilesStatusNoInfo : FilesStatus := "no_info".

(** Modelled from the spec: the supporting record, a named source. *)
Record TorrentSource := MkTorrentSource { Key : string; ts_Name : string }.

(** Modelled from the spec: the provenance entry of a torrent. *)
Record TorrentsTorrentSource := MkTorrentsTorrentSource {
  tts_Source : string;
  tts_ImportID : NullString;
  tts_PublishedAt : Z
}.

(** Modelled from the spec: the hint, the fields that [createTorrentModel]
    assigns. *)
Record TorrentHint := MkTorrentHint {
  h_ContentType : ContentType;
  h_ContentSource : NullString;
  h_ContentID : NullString;
  h_Title : NullString;
  h_ReleaseYear : Year;
  h_Episodes : Episodes;
  h_VideoResolution : NullVideoResolution;
  h_VideoSource : NullVideoSource;
  h_VideoCodec : NullVideoCodec;
  h_Video3d : NullVideo3d;
  h_VideoModifier : NullVideoModifier;
  h_ReleaseGroup : NullString
}.

(** Modelled from the spec: Go's zero values, [model.NullString{}] and
    [model.TorrentHint{}]. *)
Definition zero_Null : Null string := MkNull EmptyString false.
Definition zero_TorrentHint : TorrentHint :=
  MkTorrentHint EmptyString zero_Null zero_Null zero_Null 0%Z ∅
                zero_Null zero_Null zero_Null zero_Null zero_Null zero_Null.

(** Modelled from the spec: the primary record, the fields that
    [createTorrentModel] assigns. *)
Record Torrent := MkTorrent {
  t_InfoHash : protocol.ID;
  t_Name : string;
  t_Size : Z;
  t_Private : bool;
  t_FilesStatus : FilesStatus;
  t_Sources : list TorrentsTorrentSource;
  t_Hint : TorrentHint
}.
End model.

Import model.

(** ** The input record and the session info *)

Record Item := MkItem {
  Source : string;
  InfoHash : protocol.ID;
  Name : string;
  Size : Z;                       (* uint64 *)
  Private : bool;
  ContentType : NullContentType;
  ContentSource : NullString;
  ContentID : NullString;
  Title : NullString;
  ReleaseDate : Date;
  ReleaseYear : Year;
  Episodes : model.Episodes;
  VideoResolution : NullVideoResolution;
  VideoSource : NullVideoSource;
  VideoCodec : NullVideoCodec;
  Video3d : NullVideo3d;
  VideoModifier : NullVideoModifier;
  ReleaseGroup : NullString;
  PublishedAt : Z                 (* time.Time, as an instant *)
}.

Record Info := MkInfo { ID : string }.

(** Go's [error] values, by their message. *)
Definition error := string.
Definition ErrImportClosed : error := "import closed".

Record ImportItemsError := MkImportItemsError {
  Items : list Item;
  Err : error
}.

Definition ImportErrors := list ImportItemsError.

Definition IsNil (e : ImportErrors) : bool :=
  match e with [] => true | _ => false end.

(** [OrNil]: the list itself as an error, or nil when it is empty. *)
Definition OrNil (e : ImportErrors) : option ImportErrors :=
  if IsNil e then None else Some e.

(** ** [createTorrentModel] *)

(** The hint literal built when the item has a content type. *)
Definition hint_of_item (item : Item) : TorrentHint :=
  {| h_ContentType := null_value (ContentType item);
     h_ContentSource := ContentSource item;
     h_ContentID := ContentID item;
     h_Title := Title item;
     h_ReleaseYear := ReleaseYear item;
     h_Episodes := Episodes item;
     h_VideoResolution := VideoResolution item;
     h_VideoSource := VideoSource item;
     h_VideoCodec := VideoCodec item;
     h_Video3d := Video3d item;
     h_VideoModifier := VideoModifier item;
     h_ReleaseGroup := ReleaseGroup item |}.

Definition createTorrentModel (info : Info) (item : Item) : Torrent :=
  let t :=
    {| t_InfoHash := InfoHash item;
       t_Name := Name item;
       t_Size := Size item;
       t_Private := Private item;
       t_FilesStatus := FilesStatusNoInfo;
       t_Sources :=
         [ {| tts_Source := Source item;
              tts_ImportID := NewNullString (ID info);
              tts_PublishedAt := PublishedAt item |} ];
       t_Hint := zero_TorrentHint |} in
  if Valid (ContentType item)
  then {| t_InfoHash := t_InfoHash t;
          t_Name := t_Name t;
          t_Size := t_Size t;
          t_Private := t_Private t;
          t_FilesStatus := t_FilesStatus t;
          t_Sources := t_Sources t;
          t_Hint := hint_of_item item |}
  else t.


(** ** The storage layer and the processor queue

    [i.dao.TorrentSource...CreateInBatches], [i.dao.Torrent...CreateInBatches]
    and [i.processorPublisher.Publish] are calls into other packages.  Each
    takes the state [W] of the outside world to a new one and returns Go's
    [error] ([None] is [nil]). *)

Class Backend (W : Type) := {
  (** create-or-ignore insert of sources ([OnConflict{DoNothing: true}]) *)
  CreateSources : list TorrentSource → W → option error * W;
  (** create-or-update upsert of torrents ([OnConflict{UpdateAll: true}]) *)
  CreateTorrents : list Torrent → W → option error * W;
  (** publication of the processor message for the info hashes *)
  Publish : list protocol.ID → W → option error * W
}.

(** A remote call that was issued, with its arguments and what it returned. *)
Inductive Call :=
| CallCreateSources (sources : list TorrentSource) (r : option error)
| CallCreateTorrents (torrents : list Torrent) (r : option error)
| CallPublish (infoHashes : list protocol.ID) (r : option error).

(** The unbuffered channel [itemChan]: whether it has been closed, and the
    items sent on it so far.  A send completes when the scheduler loop has
    received the item and started [buffer] for it. *)
Record chan := MkChan { chanClosed : bool; chanSent : list Item }.

(** [None] is a run-time panic. *)
Definition chan_send (x : Item) (c : chan) : option chan :=
  if chanClosed c then None
  else Some {| chanClosed := false; chanSent := chanSent c ++ [x] |}.

Definition chan_close (c : chan) : option chan :=
  if chanClosed c then None
  else Some {| chanClosed := true; chanSent := chanSent c |}.

(** [uint] and [int] are 64 bits wide; [int(u)] reinterprets the bits. *)
Definition int_of_uint (u : Z) : Z :=
  (if u <? 2 ^ 63 then u else u - 2 ^ 64)%Z.

Section Session.
Context {W : Type} `{Backend W}.

(** The session object.  [bufferSize] and [maxWaitTime] are the fields of the
    embedded [importer]; [world] stands for what [dao] and
    [processorPublisher] reach; [ctxDone] tells whether [stop] has cancelled
    the session context.  [calls] is a ghost field: the remote calls issued so
    far, oldest first.  The mutex and the wait group carry no data. *)
Record activeImport := MkActiveImport {
  bufferSize : Z;                 (* uint *)
  maxWaitTime : Z;                (* time.Duration *)
  world : W;
  stopped : bool;
  ctxDone : bool;
  info : Info;
  itemChan : chan;
  itemBuffer : list Item;
  importedSources : gset string;
  importedHashes : list protocol.ID;
  errors : ImportErrors;
  calls : list Call
}.

Definition set_stopped (b : bool) (i : activeImport) : activeImport :=
  MkActiveImport (bufferSize i) (maxWaitTime i) (world i) b (ctxDone i)
    (info i) (itemChan i) (itemBuffer i) (importedSources i)
    (importedHashes i) (errors i) (calls i).

Definition set_ctxDone (b : bool) (i : activeImport) : activeImport :=
  MkActiveImport (bufferSize i) (maxWaitTime i) (world i) (stopped i) b
    (info i) (itemChan i) (itemBuffer i) (importedSources i)
    (importedHashes i) (errors i) (calls i).

Definition set_itemChan (c : chan) (i : activeImport) : activeImport :=
  MkActiveImport (bufferSize i) (maxWaitTime i) (world i) (stopped i)
    (ctxDone i) (info i) c (itemBuffer i) (importedSources i)
    (importedHashes i) (errors i) (calls i).

Definition set_itemBuffer (b : list Item) (i : activeImport) : activeImport :=
  MkActiveImport (bufferSize i) (maxWaitTime i) (world i) (stopped i)
    (ctxDone i) (info i) (itemChan i) b (importedSources i)
    (importedHashes i) (errors i) (calls i).

Definition set_importedSources (s : gset string) (i : activeImport)
  : activeImport :=
  MkActiveImport (bufferSize i) (maxWaitTime i) (world i) (stopped i)
    (ctxDone i) (info i) (itemChan i) (itemBuffer i) s
    (importedHashes i) (errors i) (calls i).

Definition set_importedHashes (h : list protocol.ID) (i : activeImport)
  : activeImport :=
  MkActiveImport (bufferSize i) (maxWaitTime i) (world i) (stopped i)
    (ctxDone i) (info i) (itemChan i) (itemBuffer i) (importedSources i)
    h (errors i) (calls i).

Definition set_errors (e : ImportErrors) (i : activeImport) : activeImport :=
  MkActiveImport (bufferSize i) (maxWaitTime i) (world i) (stopped i)
    (ctxDone i) (info i) (itemChan i) (itemBuffer i) (importedSources i)
    (importedHashes i) e (calls i).

(** The world after a remote call, and the call appended to the log. *)
Definition set_world (w : W) (c : Call) (i : activeImport) : activeImport :=
  MkActiveImport (bufferSize i) (maxWaitTime i) w (stopped i)
    (ctxDone i) (info i) (itemChan i) (itemBuffer i) (importedSources i)
    (importedHashes i) (errors i) (calls i ++ [c]).

(** *** A method body that may return an error early

    [inl e] is [return e]; [inr a] goes on with [a]. *)
Definition M (A : Type) : Type := activeImport → (error + A) * activeImport.

Definition ret {A} (a : A) : M A := λ i, (inr a, i).

Definition bind {A B} (m : M A) (k : A → M B) : M B :=
  λ i, match m i with
       | (inl e, i') => (inl e, i')
       | (inr a, i') => k a i'
       end.

Definition modify (f : activeImport → activeImport) : M unit :=
  λ i, (inr tt, f i).

(** [if err := op(...); err != nil { return err }] *)
Definition call (op : W → option error * W) (c : option error → Call)
  : M unit :=
  λ i, let '(r, w) := op (world i) in
       match r with
       | Some e => (inl e, set_world w (c r) i)
       | None => (inr tt, set_world w (c r) i)
       end.

Notation "m1 >> m2" := (bind m1 (λ _, m2))
  (at level 100, right associativity).

(** *** [persistItems] *)

(** The locals of the [for _, item := range items] loop. *)
Record locals := MkLocals {
  sources : list TorrentSource;
  sourcesMap : gset string;
  torrents : list Torrent;
  infoHashes : list protocol.ID
}.

(** One iteration of the loop. *)
Definition collect (inf : Info) (imported : gset string)
  (l : locals) (item : Item) : locals :=
  let '(srcs, smap) :=
    if decide (Source item ∈ imported) then (sources l, sourcesMap l)
    else if decide (Source item ∈ sourcesMap l) then (sources l, sourcesMap l)
    else (sources l ++ [ {| Key := Source item; ts_Name := Source item |} ],
          {[ Source item ]} ∪ sourcesMap l) in
  {| sources := srcs;
     sourcesMap := smap;
     torrents := torrents l ++ [createTorrentModel inf item];
     infoHashes := infoHashes l ++ [InfoHash item] |}.

Definition collect_all (inf : Info) (imported : gset string)
  (items : list Item) : locals :=
  fold_left (collect inf imported) items (MkLocals [] ∅ [] []).

(** [for _, s := range sources { i.importedSources[s.Key] = struct{}{} }] *)
Definition mark_sources (srcs : list TorrentSource) (i : activeImport)
  : activeImport :=
  set_importedSources
    (fold_left (λ s src, {[ Key src ]} ∪ s) srcs (importedSources i)) i.

Definition persistItems_body (items : list Item) : M unit :=
  λ i,
  let l := collect_all (info i) (importedSources i) items in
  ((if (0 <? length (sources l))%nat
    then call (CreateSources (sources l)) (CallCreateSources (sources l)) >>
         modify (mark_sources (sources l))
    else ret tt) >>
   call (CreateTorrents (torrents l)) (CallCreateTorrents (torrents l)) >>
   call (Publish (infoHashes l)) (CallPublish (infoHashes l)) >>
   modify (λ i, set_importedHashes (importedHashes i ++ infoHashes l) i)) i.

Definition persistItems (items : list Item) (i : activeImport)
  : option error * activeImport :=
  match persistItems_body items i with
  | (inl e, i') => (Some e, i')
  | (inr _, i') => (None, i')
  end.

(** *** [flushLocked], [flush], [buffer] *)

Definition flushLocked (i : activeImport) : activeImport :=
  if (length (itemBuffer i) =? 0)%nat then i
  else
    let '(err, i1) := persistItems (itemBuffer i) i in
    let i2 :=
      match err with
      | Some e =>
          set_errors
            (errors i1 ++ [ {| Items := itemBuffer i1; Err := e |} ]) i1
      | None => i1
      end in
    set_itemBuffer [] i2.

Definition flush (i : activeImport) : activeImport := flushLocked i.

Definition buffer (item : Item) (i : activeImport) : activeImport :=
  let i1 := set_itemBuffer (itemBuffer i ++ [item]) i in
  if (int_of_uint (bufferSize i1) <=? Z.of_nat (length (itemBuffer i1)))%Z
  then flushLocked i1
  else i1.

(** *** [Import], [Close] and the read-only methods *)

(** [for _, item := range items { i.itemChan <- item }] *)
Fixpoint send_all (items : list Item) (c : chan) : option chan :=
  match items with
  | [] => Some c
  | x :: rest =>
      match chan_send x c with
      | Some c' => send_all rest c'
      | None => None
      end
  end.

Definition Import (items : list Item) (i : activeImport)
  : option (option error * activeImport) :=
  if stopped i then Some (Some ErrImportClosed, i)
  else
    match send_all items (itemChan i) with
    | Some c => Some (None, set_itemChan c i)
    | None => None
    end.

Definition Close (i : activeImport)
  : option (option ImportErrors * activeImport) :=
  let i1 := flushLocked i in
  if negb (stopped i1) then
    match chan_close (itemChan i1) with
    | Some c =>
        let i2 := set_itemChan c (set_ctxDone true (set_stopped true i1)) in
        Some (OrNil (errors i2), i2)
    | None => None
    end
  else Some (OrNil (errors i1), i1).

Definition Drain (i : activeImport) : activeImport := i.
Definition Err_ (i : activeImport) : option ImportErrors := OrNil (errors i).
Definition ImportErrors_ (i : activeImport) : ImportErrors := errors i.
Definition Closed (i : activeImport) : bool := stopped i.
Definition ImportedHashes (i : activeImport) : list protocol.ID :=
  importedHashes i.

(** [importer.New]: the fresh session of an importer with the given
    configuration, over the world [w]. *)
Definition New (size wait : Z) (w : W) (inf : Info) : activeImport :=
  {| bufferSize := size;
     maxWaitTime := wait;
     world := w;
     stopped := false;
     ctxDone := false;
     info := inf;
     itemChan := {| chanClosed := false; chanSent := [] |};
     itemBuffer := [];
     importedSources := ∅;
     importedHashes := [];
     errors := [];
     calls := [] |}.

(** *** The scheduler loop of [run]

    The loop waits in [select] for the session context to be cancelled, for
    an item on [itemChan], or for [time.After(i.maxWaitTime)], a timer that
    each pass of the loop creates anew.  Time is an instant in [Z], in the
    unit of [maxWaitTime].  The environment is the list of what happens
    outside the loop, in order of time. *)
Inductive Event :=
| Cancelled (t : Z)
    (* the parent context is cancelled at instant [t] *)
| Handed (t : Z) (item : Item).
    (* a producer calls [Import(item)] at instant [t] *)

Record Sched := MkSched {
  sess : activeImport;
  clock : Z;            (* the instant at which the current pass waits *)
  looping : bool        (* the goroutine of [run] has not returned *)
}.

(** One pass of the [for { select { ... } }] loop.  The timer of this pass
    fires at [clock + maxWaitTime]; an event that is ready earlier wins.  The
    goroutines started by [go i.buffer(item)] and [go i.flush()] run to
    completion at once: each is a critical section of the session mutex, and
    this is one of the schedules the program admits.  Once the session is
    stopped both the cancelled context and the closed channel are ready (the
    latter makes the loop return at once); the pass takes the former. *)
Definition select (evs : list Event) (s : Sched)
  : option (list Event * Sched) :=
  let deadline := (clock s + maxWaitTime (sess s))%Z in
  let timeout :=
    (* case <-time.After(i.maxWaitTime): go i.flush() *)
    Some (evs, {| sess := flush (sess s); clock := deadline;
                  looping := true |}) in
  let done (t : Z) (rest : list Event) :=
    (* case <-iCtx.Done(): _ = i.Close(); return *)
    match Close (sess s) with
    | Some (_, i) =>
        Some (rest, {| sess := i; clock := Z.max (clock s) t;
                       looping := false |})
    | None => None
    end in
  if ctxDone (sess s) then done (clock s) evs
  else
    match evs with
    | Cancelled t :: rest =>
        if (t <? deadline)%Z then done t rest else timeout
    | Handed t item :: rest =>
        if (t <? deadline)%Z then
          match Import [item] (sess s) with
          | Some (None, i1) =>
              (* case item, ok := <-i.itemChan: go i.buffer(item) *)
              Some (rest, {| sess := buffer item i1;
                             clock := Z.max (clock s) t;
                             looping := true |})
          | Some (Some _, _) =>
              (* the producer is refused; the loop goes on waiting *)
              Some (rest, s)
          | None => None
          end
        else timeout
    | [] => timeout
    end.

(** At most [passes] passes of the loop. *)
Fixpoint run (passes : nat) (evs : list Event) (s : Sched)
  : option (list Event * Sched) :=
  match passes with
  | O => Some (evs, s)
  | S n =>
      if looping s then
        match select evs s with
        | Some (evs', s') => run n evs' s'
        | None => None
        end
      else Some (evs, s)
  end.

(** *** Sessions and their operations as a transition system *)

(** What can happen to a session, each under the session mutex. *)
Inductive Op :=
| OpImport (items : list Item)
| OpBuffer (item : Item)
| OpFlush
| OpClose
| OpDrain.

Definition step (o : Op) (i : activeImport) : option activeImport :=
  match o with
  | OpImport items => snd <$> Import items i
  | OpBuffer item => Some (buffer item i)
  | OpFlush => Some (flush i)
  | OpClose => snd <$> Close i
  | OpDrain => Some (Drain i)
  end.

Fixpoint steps (os : list Op) (i : activeImport) : option activeImport :=
  match os with
  | [] => Some i
  | o :: rest =>
      match step o i with
      | Some i' => steps rest i'
      | None => None
      end
  end.


(** The channel is closed by [Close] only, together with [stopped]. *)
Definition chan_ok (i : activeImport) : Prop :=
  chanClosed (itemChan i) = stopped i.

End Session.

Arguments activeImport W : clear implicits.
Arguments Sched W : clear implicits.

(** ** A scripted backend

    The world is the list of the replies that the next remote calls will get,
    whatever the call; past the end of the script every call succeeds. *)
Definition Script := list (option error).

Definition reply {A : Type} (_ : A) (s : Script) : option error * Script :=
  match s with
  | [] => (None, [])
  | r :: s' => (r, s')
  end.

#[export] Instance scripted : Backend Script :=
  {| CreateSources := reply; CreateTorrents := reply; Publish := reply |}.

(** Sample data. *)
Definition item_of (src : string) (h : Byte.byte) : Item :=
  {| Source := src; InfoHash := [h]; Name := "n"; Size := 1%Z;
     Private := false;
     ContentType := MkNull EmptyString false;
     ContentSource := zero_Null; ContentID := zero_Null; Title := zero_Null;
     ReleaseDate := MkDate 0%Z 0%Z 0%Z; ReleaseYear := 0%Z; Episodes := ∅;
     VideoResolution := zero_Null; VideoSource := zero_Null;
     VideoCodec := zero_Null; Video3d := zero_Null;
     VideoModifier := zero_Null; ReleaseGroup := zero_Null;
     PublishedAt := 0%Z |}.

Definition itemA : Item := item_of "a" Byte.x01.
Definition itemB : Item := item_of "b" Byte.x02.

(** A session of threshold [size] over the script [w]. *)
Definition session (size : Z) (w : Script) : activeImport Script :=
  New size 10 w (MkInfo "job").

(** The session with [items] in its buffer. *)
Definition buffered (items : list Item) (i : activeImport Script)
  : activeImport Script :=
  set_itemBuffer items i.

(** Two flushes of the same record, by the threshold 1. *)
Definition retry_ops : list Op := [OpBuffer itemA; OpBuffer itemA].

(** The scheduler of a session of threshold 1000 and wait time 10, at
    instant 0, and the same scheduler twenty passes later under a record
    every 9 units of time. *)
Definition trickle_start : Sched Script :=
  MkSched (session 1000 []) 0 true.

Definition trickle_end : Sched Script :=
  MkSched
    (set_itemChan (MkChan false (replicate 20 itemA))
       (set_itemBuffer (replicate 20 itemA) (session 1000 [])))
    180 true.

(** ** Reading a batch and the call log *)

Definition keys (srcs : list TorrentSource) : list string := map Key srcs.

(** Is [c] a create-or-ignore insert that carries the key [k]? *)
Definition inserts_key (k : string) (c : Call) : bool :=
  match c with
  | CallCreateSources srcs _ => bool_decide (k ∈ keys srcs)
  | _ => false
  end.

(** Is [c] a create-or-ignore insert that carries [k] and failed? *)
Definition fails_key (k : string) (c : Call) : bool :=
  match c with
  | CallCreateSources srcs (Some _) => bool_decide (k ∈ keys srcs)
  | _ => false
  end.

(** The number of inserts in the log that carry [k], and how many failed. *)
Definition issued_for (k : string) (cs : list Call) : nat :=
  length (filter (λ c, inserts_key k c = true) cs).

Definition failed_for (k : string) (cs : list Call) : nat :=
  length (filter (λ c, fails_key k c = true) cs).

(** The calls that are no create-or-ignore insert. *)
Definition no_insert (c : Call) : Prop :=
  match c with CallCreateSources _ _ => False | _ => True end.

Definition succeeded {W : Type} (r : option error * W) : bool :=
  match fst r with None => true | Some _ => false end.

Section Outcomes.
Context {W : Type} `{Backend W}.

(** The three arguments that [persistItems] computes for the batch [items]. *)
Definition new_sources (i : activeImport W) (items : list Item)
  : list TorrentSource :=
  sources (collect_all (info i) (importedSources i) items).

Definition batch_torrents (i : activeImport W) (items : list Item)
  : list Torrent :=
  torrents (collect_all (info i) (importedSources i) items).

Definition batch_hashes (i : activeImport W) (items : list Item)
  : list protocol.ID :=
  infoHashes (collect_all (info i) (importedSources i) items).

(** What the backend answers to each step, each on the world the steps
    before it left.  The insert is not issued for an empty list of sources. *)
Definition insert_reply (i : activeImport W) (items : list Item)
  : option error * W :=
  match new_sources i items with
  | [] => (None, world i)
  | srcs => CreateSources srcs (world i)
  end.

Definition upsert_reply (i : activeImport W) (items : list Item)
  : option error * W :=
  CreateTorrents (batch_torrents i items) (snd (insert_reply i items)).

Definition publish_reply (i : activeImport W) (items : list Item)
  : option error * W :=
  Publish (batch_hashes i items) (snd (upsert_reply i items)).

(** The log entry of the insert, when it is issued. *)
Definition insert_calls (i : activeImport W) (items : list Item)
  : list Call :=
  match new_sources i items with
  | [] => []
  | srcs => [CallCreateSources srcs (fst (CreateSources srcs (world i)))]
  end.

(** The durable keys once the sources of the batch are marked. *)
Definition marked (i : activeImport W) (items : list Item) : gset string :=
  importedSources (mark_sources (new_sources i items) i).

(** The session [i] with its world, durable keys, committed hashes and call
    log replaced; [persistItems] writes no other field. *)
Definition with_bookkeeping (w : W) (durable : gset string)
  (hashes : list protocol.ID) (cs : list Call) (i : activeImport W)
  : activeImport W :=
  MkActiveImport (bufferSize i) (maxWaitTime i) w (stopped i) (ctxDone i)
    (info i) (itemChan i) (itemBuffer i) durable hashes (errors i) cs.

(** What the loop keeps true of [sources] and [sourcesMap]. *)
Definition sources_inv (imp : gset string) (l : locals) : Prop :=
  NoDup (keys (sources l))
  ∧ (∀ k, k ∈ sourcesMap l ↔ k ∈ keys (sources l))
  ∧ (∀ k, k ∈ keys (sources l) → k ∉ imp)
  ∧ (∀ s, s ∈ sources l → ts_Name s = Key s).

(** What every session keeps true of its log, for the key [k]: while [k] is
    not durable every insert that carried it failed, a durable [k] was carried
    by an insert that succeeded, at most one such insert succeeded, and
    after it no insert carried [k]. *)
Definition log_inv_at (k : string) (i : activeImport W) : Prop :=
  (k ∉ importedSources i → issued_for k (calls i) = failed_for k (calls i))
  ∧ (k ∈ importedSources i → failed_for k (calls i) < issued_for k (calls i))
  ∧ issued_for k (calls i) ≤ 1 + failed_for k (calls i)
  ∧ (∀ l1 srcs l2,
       calls i = l1 ++ CallCreateSources srcs None :: l2 →
       k ∈ keys srcs → issued_for k l2 = 0).

Definition log_inv (i : activeImport W) : Prop :=
  (∀ srcs r, CallCreateSources srcs r ∈ calls i → NoDup (keys srcs))
  ∧ ∀ k, log_inv_at k i.

(** The threshold as [buffer] reads it: [int(i.bufferSize)]. *)
Definition threshold (i : activeImport W) : Z := int_of_uint (bufferSize i).

End Outcomes.

(** The trickle: [n] records, one every [gap] units of time from [start]. *)
Fixpoint trickle (start gap : Z) (n : nat) : list Event :=
  match n with
  | O => []
  | S n' => Handed start itemA :: trickle (start + gap) gap n'
  end.

(** ** Reading a whole session *)

(** The hashes of the publications of the log that succeeded, in order. *)
Definition published (cs : list Call) : list protocol.ID :=
  flat_map (λ c, match c with CallPublish hs None => hs | _ => [] end) cs.

(** The records that the [buffer] goroutines of [os] append, in order. *)
Definition buffered_by (os : list Op) : list Item :=
  flat_map (λ o, match o with OpBuffer item => [item] | _ => [] end) os.

Section Accounts.
Context {W : Type}.

(** Where the session holds the hash of a record it was given: among the
    committed hashes, in a batch of the error list, or in the buffer. *)
Definition accounted (i : activeImport W) : list protocol.ID :=
  importedHashes i
  ++ flat_map (λ e, map InfoHash (Items e)) (errors i)
  ++ map InfoHash (itemBuffer i).

(** The lists of a session only grow, its flags only rise, and its
    configuration stays. *)
Definition grows (i i' : activeImport W) : Prop :=
  importedHashes i `prefix_of` importedHashes i'
  ∧ errors i `prefix_of` errors i'
  ∧ calls i `prefix_of` calls i'
  ∧ chanSent (itemChan i) `prefix_of` chanSent (itemChan i')
  ∧ importedSources i ⊆ importedSources i'
  ∧ (stopped i = true → stopped i' = true)
  ∧ bufferSize i' = bufferSize i ∧ maxWaitTime i' = maxWaitTime i
  ∧ info i' = info i.

(** The buffer is empty or below the threshold. *)
Definition buffer_ok (i : activeImport W) : Prop :=
  itemBuffer i = []
  ∨ (Z.of_nat (length (itemBuffer i)) < int_of_uint (bufferSize i))%Z.

(** Every publication of the log comes right after the upsert of its batch,
    which succeeded, and every upsert that succeeded is followed at once by
    the publication of its batch. *)
Definition log_ordered (cs : list Call) : Prop :=
  (∀ l1 hs r l2,
     cs = l1 ++ CallPublish hs r :: l2 →
     ∃ l0 ts, l1 = l0 ++ [CallCreateTorrents ts None]
              ∧ hs = map t_InfoHash ts)
  ∧ (∀ l1 ts l2,
       cs = l1 ++ CallCreateTorrents ts None :: l2 →
       ∃ r l3, l2 = CallPublish (map t_InfoHash ts) r :: l3)
  ∧ (∀ l1 ts e l2,
       cs = l1 ++ CallCreateTorrents ts (Some e) :: l2 →
       match l2 with CallPublish _ _ :: _ => False | _ => True end).

End Accounts.

(** The calls of one run of [persistItems], by where it returns. *)
Inductive segment : list Call → Prop :=
| seg_insert_failed srcs e :
    segment [CallCreateSources srcs (Some e)]
| seg_upsert_failed ts e :
    segment [CallCreateTorrents ts (Some e)]
| seg_insert_upsert_failed srcs ts e :
    segment [CallCreateSources srcs None; CallCreateTorrents ts (Some e)]
| seg_published ts r :
    segment [CallCreateTorrents ts None;
             CallPublish (map t_InfoHash ts) r]
| seg_insert_published srcs ts r :
    segment [CallCreateSources srcs None; CallCreateTorrents ts None;
             CallPublish (map t_InfoHash ts) r].

(** A session of threshold 2 that has buffered two records and so has
    flushed them, the publication failing. *)
Definition ops_two : list Op := [OpBuffer itemA; OpBuffer itemB].

(** * The TMDB movie client ([internal/classifier/video/tmdb/movie.go]) *)

Module strconv.
(** Go's [strconv.Itoa]: the decimal digits of the number, after a minus sign
    when it is negative. *)
Definition Itoa (n : Z) : string := NilZero.string_of_int (Z.to_int n).

(** The two errors of [strconv.Atoi]. *)
Inductive NumErr := ErrSyntax | ErrRange.

(** The range of [int], 64 bits wide. *)
Definition in_int (n : Z) : bool := ((- 2 ^ 63 <=? n) && (n <? 2 ^ 63))%Z.

(** Go's [strconv.Atoi]: an optional sign, then at least one decimal digit
    and nothing else; a number outside [int] is a range error. *)
Definition Atoi (s : string) : NumErr + Z :=
  match s with
  | EmptyString => inl ErrSyntax
  | String c rest =>
      let '(neg, digits) :=
        if Ascii.eqb c "-"%char then (true, rest)
        else if Ascii.eqb c "+"%char then (false, rest)
        else (false, s) in
      match NilZero.uint_of_string digits with
      | None => inl ErrSyntax
      | Some d =>
          let n := (if neg then - Z.of_uint d else Z.of_uint d)%Z in
          if in_int n then inr n else inl ErrRange
      end
  end.
End strconv.

Module tmdb.

(** What [movie.go] uses and the sources do not hold: the error values and
    [errors.Is], declarations of the packages [model], [classifier] and [tmdb]
    itself, and the helper [levenshteinCheck].  They are the fields of a
    class, so that the theorems hold for whatever they are. *)
Class Deps := {
  error : Type;
  Error : error → string;                    (* err.Error() *)
  ErrNoMatch : error;                        (* classifier.ErrNoMatch *)
  Is_ErrNoMatch : error → bool;              (* errors.Is(err, ErrNoMatch) *)
  Is_ErrNoMatch_refl : Is_ErrNoMatch ErrNoMatch = true;
  ErrUnknownSource : error;
  NumError : string → strconv.NumErr → error; (* the error of Atoi(s) *)
  SourceTmdb : string;
  ContentTypeMovie : model.ContentType;
  ContentTypeXxx : model.ContentType;
  float32 : Type;
  NullLanguage : Type;
  ParseLanguage : string → NullLanguage;
  NewNullBool : bool → Null bool;
  NewNullFloat32 : float32 → Null float32;
  NewNullUint : Z → Null Z;
  NewDateFromIsoString : string → error + Date;
  Year_IsNil : Year → bool;
  levenshteinCheck : string → list string → Z → bool
}.

Definition SourceImdb : string := "imdb".
Definition SourceTvdb : string := "tvdb".

(** The double quote that [fmt.Sprintf] puts before and after [p.Title]. *)
Definition dquote : string := String (Ascii.ascii_of_nat 34) EmptyString.

(** [model.Date{}] *)
Definition zero_Date : Date := MkDate 0%Z 0%Z 0%Z.

Record ContentCollection := MkContentCollection {
  cc_Type : string;
  cc_Source : string;
  cc_ID : string;
  cc_Name : string
}.

Record ContentAttribute := MkContentAttribute {
  ca_Source : string;
  ca_Key : string;
  ca_Value : string
}.

Record ContentRef := MkContentRef { ref_Source : string; ref_ID : string }.

(** The options of a local search, as the calls that build them. *)
Inductive Criteria :=
| ContentTypeCriteria (types : list model.ContentType)
| ContentReleaseDateCriteria_FromYear (y : Year)
    (* ContentReleaseDateCriteria(NewDateRangeFromYear(y)) *)
| ContentCanonicalIdentifierCriteria (ref : ContentRef)
| ContentAlternativeIdentifierCriteria (ref : ContentRef).

Inductive Option :=
| Where (c : Criteria)
| QueryString (s : string)
| OrderByQueryStringRank
| Limit (n : Z)
| ContentDefaultPreload
| ContentDefaultHydrate.

(** The structures of the TMDB library, the fields that [movie.go] reads. *)
Record Genre := MkGenre { g_ID : Z; g_Name : string }.

Record BelongsToCollection := MkBelongsToCollection {
  bc_ID : Z;
  bc_Name : string
}.

Record SearchMovieParams := MkSearchMovieParams {
  p_Title : string;
  p_Year : Year;
  p_IncludeAdult : bool;
  p_LevenshteinThreshold : Z            (* uint *)
}.

Record SearchItem := MkSearchItem {
  si_ID : Z;                            (* int64 *)
  si_Title : string;
  si_OriginalTitle : string
}.

Section WithDeps.
Context `{Deps}.

Record MovieDetails := MkMovieDetails {
  d_Adult : bool;
  d_BackdropPath : string;
  d_BelongsToCollection : BelongsToCollection;
  d_Genres : list Genre;
  d_ID : Z;                             (* int64 *)
  d_IMDbID : string;
  d_OriginalLanguage : string;
  d_OriginalTitle : string;
  d_Overview : string;
  d_Popularity : float32;
  d_PosterPath : string;
  d_ReleaseDate : string;
  d_Runtime : Z;                        (* int *)
  d_Title : string;
  d_VoteAverage : float32;
  d_VoteCount : Z                       (* int64 *)
}.

(** [model.Content], the fields that [movie.go] reads or writes. *)
Record Content := MkContent {
  c_Type : model.ContentType;
  c_Source : string;
  c_ID : string;
  c_Title : string;
  c_ReleaseDate : Date;
  c_ReleaseYear : Year;
  c_Adult : Null bool;
  c_OriginalLanguage : NullLanguage;
  c_OriginalTitle : NullString;
  c_Overview : NullString;
  c_Runtime : Null Z;                   (* NullUint16 *)
  c_Popularity : Null float32;
  c_VoteAverage : Null float32;
  c_VoteCount : Null Z;                 (* NullUint *)
  c_Collections : list ContentCollection;
  c_Attributes : list ContentAttribute
}.

(** The result of every function of the client is Go's pair of a content and
    an error; the content of every error return of [movie.go] is the zero
    [model.Content{}], so the pair is the sum [error + Content]. *)
Definition result : Type := error + Content.

(** *** [getExternalSource] *)
Definition getExternalSource (source id : string)
  : string * string * option error :=
  if String.eqb source SourceImdb then ("imdb_id", id, None)
  else if String.eqb source SourceTvdb then ("tvdb_id", id, None)
  else (EmptyString, EmptyString, Some ErrUnknownSource).

(** *** [MovieDetailsToMovieModel] *)

Definition collections_of (details : MovieDetails) : list ContentCollection :=
  (if (bc_ID (d_BelongsToCollection details) =? 0)%Z then []
   else [ {| cc_Type := "franchise";
             cc_Source := SourceTmdb;
             cc_ID := strconv.Itoa (bc_ID (d_BelongsToCollection details));
             cc_Name := bc_Name (d_BelongsToCollection details) |} ])
  ++ map (λ genre, {| cc_Type := "genre";
                      cc_Source := SourceTmdb;
                      cc_ID := strconv.Itoa (g_ID genre);
                      cc_Name := g_Name genre |})
         (d_Genres details).

Definition attributes_of (details : MovieDetails) : list ContentAttribute :=
  (if String.eqb (d_IMDbID details) EmptyString then []
   else [ {| ca_Source := "imdb"; ca_Key := "id";
             ca_Value := d_IMDbID details |} ])
  ++ (if String.eqb (d_PosterPath details) EmptyString then []
      else [ {| ca_Source := "tmdb"; ca_Key := "poster_path";
                ca_Value := d_PosterPath details |} ])
  ++ (if String.eqb (d_BackdropPath details) EmptyString then []
      else [ {| ca_Source := "tmdb"; ca_Key := "backdrop_path";
                ca_Value := d_BackdropPath details |} ]).

Definition MovieDetailsToMovieModel (details : MovieDetails) : result :=
  match
    (if String.eqb (d_ReleaseDate details) EmptyString then inr zero_Date
     else NewDateFromIsoString (d_ReleaseDate details))
  with
  | inl parseDateErr => inl parseDateErr
  | inr releaseDate =>
      inr {| c_Type := if d_Adult details then ContentTypeXxx
                       else ContentTypeMovie;
             c_Source := SourceTmdb;
             c_ID := strconv.Itoa (d_ID details);
             c_Title := d_Title details;
             c_ReleaseDate := releaseDate;
             c_ReleaseYear := date_year releaseDate;
             c_Adult := NewNullBool (d_Adult details);
             c_OriginalLanguage := ParseLanguage (d_OriginalLanguage details);
             c_OriginalTitle := NewNullString (d_OriginalTitle details);
             c_Overview :=
               MkNull (d_Overview details)
                 (negb (String.eqb (d_Overview details) EmptyString));
             c_Runtime :=
               MkNull (d_Runtime details mod 2 ^ 16)%Z
                 (0 <? d_Runtime details)%Z;
             c_Popularity := NewNullFloat32 (d_Popularity details);
             c_VoteAverage := NewNullFloat32 (d_VoteAverage details);
             c_VoteCount := NewNullUint (d_VoteCount details mod 2 ^ 64)%Z;
             c_Collections := collections_of details;
             c_Attributes := attributes_of details |}
  end.

(** *** The collaborators of the client

    [c.s] is the local content search and [c.c] the client of the TMDB API.
    A call takes the world [W] to a new one. *)
Class Client (W : Type) := {
  s_Content : list Option → W → (error + list Content) * W;
  c_GetSearchMovies :
    string → gmap string string → W → (error + list SearchItem) * W;
  (* the [MovieResults] of the reply *)
  c_GetFindByID :
    string → gmap string string → W → (error + list SearchItem) * W;
  c_GetMovieDetails :
    Z → gmap string string → W → (error + MovieDetails) * W
}.

(** A call that was issued, with its arguments. *)
Inductive ApiCall :=
| CallContent (options : list Option)
| CallGetSearchMovies (query : string) (urlOptions : gmap string string)
| CallGetFindByID (id : string) (options : gmap string string)
| CallGetMovieDetails (id : Z) (options : gmap string string).

(** Is the call one to the TMDB API? *)
Definition remote (c : ApiCall) : bool :=
  match c with CallContent _ => false | _ => true end.

Section WithClient.
Context {W : Type} `{Client W}.

(** The world and, as a ghost, the calls issued so far. *)
Record St := MkSt { st_world : W; st_log : list ApiCall }.

Definition issue {A : Type} (op : W → (error + A) * W) (c : ApiCall) (st : St)
  : (error + A) * St :=
  let '(r, w) := op (st_world st) in
  (r, {| st_world := w; st_log := st_log st ++ [c] |}).

(** *** [getMovieByTmbdId] *)
Definition getMovieByTmbdId (id : Z) (st : St) : result * St :=
  let '(r, st1) :=
    issue (c_GetMovieDetails id ∅) (CallGetMovieDetails id ∅) st in
  match r with
  | inl getDetailsErr =>
      (inl (if String.prefix "code: 34" (Error getDetailsErr)
            then ErrNoMatch else getDetailsErr), st1)
  | inr d => (MovieDetailsToMovieModel d, st1)
  end.

(** *** [GetMovieByExternalId] *)

Definition base_options : list Option :=
  [ Where (ContentTypeCriteria [ContentTypeMovie; ContentTypeXxx]);
    ContentDefaultPreload; ContentDefaultHydrate; Limit 1 ].

(** The options of the local search: the canonical identifier for the
    source [SourceTmdb], the alternative identifier for every other. *)
Definition external_options (source id : string) : list Option :=
  let ref := {| ref_Source := source; ref_ID := id |} in
  base_options
  ++ [ Where (if String.eqb source SourceTmdb
              then ContentCanonicalIdentifierCriteria ref
              else ContentAlternativeIdentifierCriteria ref) ].

Definition GetMovieByExternalId (source id : string) (st : St)
  : result * St :=
  let options := external_options source id in
  let '(r, st1) := issue (s_Content options) (CallContent options) st in
  match r with
  | inl searchErr => (inl searchErr, st1)
  | inr (item :: _) => (inr item, st1)
  | inr [] =>
      if String.eqb source SourceTmdb then
        match strconv.Atoi id with
        | inl idErr => (inl (NumError id idErr), st1)
        | inr intId => getMovieByTmbdId intId st1
        end
      else
        match getExternalSource source id with
        | (_, _, Some externalSourceErr) => (inl externalSourceErr, st1)
        | (externalSource, externalId, None) =>
            let opts : gmap string string :=
              {[ "external_source" := externalSource ]} in
            let '(r2, st2) :=
              issue (c_GetFindByID externalId opts)
                    (CallGetFindByID externalId opts) st1 in
            match r2 with
            | inl byIdErr => (inl byIdErr, st2)
            | inr [] => (inl ErrNoMatch, st2)
            | inr (m :: _) => getMovieByTmbdId (si_ID m) st2
            end
        end
  end.

(** *** [searchMovieLocal] *)

Definition local_options (p : SearchMovieParams) : list Option :=
  [ Where (ContentTypeCriteria [ContentTypeMovie; ContentTypeXxx]);
    QueryString (dquote +:+ p_Title p +:+ dquote);
    OrderByQueryStringRank; Limit 5;
    ContentDefaultPreload; ContentDefaultHydrate ]
  ++ (if Year_IsNil (p_Year p) then []
      else [ Where (ContentReleaseDateCriteria_FromYear (p_Year p)) ]).

(** The candidates of a local item and the test of the loop. *)
Definition local_candidates (item : Content) : list string :=
  c_Title item
  :: (if Valid (c_OriginalTitle item)
      then [null_value (c_OriginalTitle item)] else []).

Definition local_match (p : SearchMovieParams) (item : Content) : bool :=
  levenshteinCheck (p_Title p) (local_candidates item)
    (p_LevenshteinThreshold p).

(** [for _, item := range result.Items { if ... { return item.Content, nil } }] *)
Fixpoint first_local (p : SearchMovieParams) (items : list Content)
  : result :=
  match items with
  | [] => inl ErrNoMatch
  | item :: rest =>
      if local_match p item then inr item else first_local p rest
  end.

Definition searchMovieLocal (p : SearchMovieParams) (st : St) : result * St :=
  let options := local_options p in
  let '(r, st1) := issue (s_Content options) (CallContent options) st in
  match r with
  | inl searchErr => (inl searchErr, st1)
  | inr items => (first_local p items, st1)
  end.

(** *** [searchMovieTmdb] *)

Definition url_options (p : SearchMovieParams) : gmap string string :=
  let o1 : gmap string string :=
    if Year_IsNil (p_Year p) then ∅
    else <[ "year" := strconv.Itoa (p_Year p) ]> ∅ in
  if p_IncludeAdult p then <[ "include_adult" := "true" ]> o1 else o1.

Definition remote_match (p : SearchMovieParams) (item : SearchItem) : bool :=
  levenshteinCheck (p_Title p) [si_Title item; si_OriginalTitle item]
    (p_LevenshteinThreshold p).

Fixpoint first_remote (p : SearchMovieParams) (items : list SearchItem)
  (st : St) : result * St :=
  match items with
  | [] => (inl ErrNoMatch, st)
  | item :: rest =>
      if remote_match p item
      then GetMovieByExternalId SourceTmdb (strconv.Itoa (si_ID item)) st
      else first_remote p rest st
  end.

Definition searchMovieTmdb (p : SearchMovieParams) (st : St) : result * St :=
  let urlOptions := url_options p in
  let '(r, st1) :=
    issue (c_GetSearchMovies (p_Title p) urlOptions)
          (CallGetSearchMovies (p_Title p) urlOptions) st in
  match r with
  | inl searchErr => (inl searchErr, st1)
  | inr items => first_remote p items st1
  end.

(** *** [SearchMovie] *)
Definition SearchMovie (p : SearchMovieParams) (st : St) : result * St :=
  match searchMovieLocal p st with
  | (inr localResult, st1) => (inr localResult, st1)
  | (inl localErr, st1) =>
      if negb (Is_ErrNoMatch localErr) then (inl localErr, st1)
      else searchMovieTmdb p st1
  end.

End WithClient.
End WithDeps.

Arguments St W : clear implicits.
End tmdb.

(** ** A sample instance of the client

    Errors are their messages; a title passes the check when it is one of
    the candidates; no date parses.  The world holds the replies of the
    collaborators, which do not change. *)
#[export] Instance sample_deps : tmdb.Deps :=
  {| tmdb.error := string;
     tmdb.Error := λ e, e;
     tmdb.ErrNoMatch := "no match";
     tmdb.Is_ErrNoMatch := String.eqb "no match";
     tmdb.Is_ErrNoMatch_refl := eq_refl;
     tmdb.ErrUnknownSource := "unknown source";
     tmdb.NumError := λ s _, "strconv.Atoi: parsing " +:+ s;
     tmdb.SourceTmdb := "tmdb";
     tmdb.ContentTypeMovie := "movie";
     tmdb.ContentTypeXxx := "xxx";
     tmdb.float32 := Z;
     tmdb.NullLanguage := Null string;
     tmdb.ParseLanguage := λ s, MkNull s true;
     tmdb.NewNullBool := λ b, MkNull b true;
     tmdb.NewNullFloat32 := λ x, MkNull x true;
     tmdb.NewNullUint := λ n, MkNull n true;
     tmdb.NewDateFromIsoString := λ _, inl "invalid date";
     tmdb.Year_IsNil := λ y, (y =? 0)%Z;
     tmdb.levenshteinCheck := λ t cs _, existsb (String.eqb t) cs |}.

Record Canned := MkCanned {
  canned_local : string + list tmdb.Content;
  canned_search : string + list tmdb.SearchItem;
  canned_find : string + list tmdb.SearchItem;
  canned_details : string + tmdb.MovieDetails
}.

#[export] Instance canned_client : tmdb.Client Canned :=
  {| tmdb.s_Content := λ _ w, (canned_local w, w);
     tmdb.c_GetSearchMovies := λ _ _ w, (canned_search w, w);
     tmdb.c_GetFindByID := λ _ _ w, (canned_find w, w);
     tmdb.c_GetMovieDetails := λ _ _ w, (canned_details w, w) |}.

Definition sample_details : tmdb.MovieDetails :=
  {| tmdb.d_Adult := false; tmdb.d_BackdropPath := EmptyString;
     tmdb.d_BelongsToCollection := tmdb.MkBelongsToCollection 10%Z "saga";
     tmdb.d_Genres := [tmdb.MkGenre 18%Z "Drama"];
     tmdb.d_ID := 603%Z; tmdb.d_IMDbID := "tt0133093";
     tmdb.d_OriginalLanguage := "en"; tmdb.d_OriginalTitle := "The Matrix";
     tmdb.d_Overview := EmptyString; tmdb.d_Popularity := 0%Z;
     tmdb.d_PosterPath := "/p.jpg"; tmdb.d_ReleaseDate := EmptyString;
     tmdb.d_Runtime := 136%Z; tmdb.d_Title := "The Matrix";
     tmdb.d_VoteAverage := 0%Z; tmdb.d_VoteCount := 7%Z |}.

Definition sample_content : tmdb.Content :=
  {| tmdb.c_Type := "movie"; tmdb.c_Source := "tmdb"; tmdb.c_ID := "603";
     tmdb.c_Title := "The Matrix"; tmdb.c_ReleaseDate := tmdb.zero_Date;
     tmdb.c_ReleaseYear := 0%Z; tmdb.c_Adult := MkNull false true;
     tmdb.c_OriginalLanguage := MkNull "en" true;
     tmdb.c_OriginalTitle := MkNull EmptyString false;
     tmdb.c_Overview := MkNull EmptyString false;
     tmdb.c_Runtime := MkNull 136%Z true;
     tmdb.c_Popularity := MkNull 0%Z true;
     tmdb.c_VoteAverage := MkNull 0%Z true;
     tmdb.c_VoteCount := MkNull 7%Z true;
     tmdb.c_Collections := []; tmdb.c_Attributes := [] |}.

Definition sample_params : tmdb.SearchMovieParams :=
  tmdb.MkSearchMovieParams "The Matrix" 1999%Z false 5%Z.

(** A world whose local search finds [sample_content], and one whose local
    search finds nothing while the TMDB API answers. *)
Definition world_local_hit : Canned :=
  MkCanned (inr [sample_content]) (inl "unreachable") (inl "unreachable")
           (inl "unreachable").

Definition world_local_miss : Canned :=
  MkCanned (inr []) (inr [tmdb.MkSearchItem 603%Z "The Matrix" "The Matrix"])
           (inr []) (inr sample_details).

(** A stopped session with a closed channel, and the same session after a
    late [buffer] goroutine has left a record in its buffer. *)
Definition closed_session : activeImport Script :=
  set_itemChan (MkChan true [])
    (set_ctxDone true (set_stopped true (session 3 []))).

Definition late_session : activeImport Script :=
  buffered [itemA] closed_session.

(** A world whose TMDB API does not know the movie. *)
Definition world_not_found : Canned :=
  MkCanned (inr []) (inr []) (inr []) (inl "code: 34 | not found").

(** Details whose release date does not parse. *)
Definition bad_date_details : tmdb.MovieDetails :=
  {| tmdb.d_Adult := true; tmdb.d_BackdropPath := EmptyString;
     tmdb.d_BelongsToCollection := tmdb.MkBelongsToCollection 0%Z EmptyString;
     tmdb.d_Genres := []; tmdb.d_ID := 7%Z; tmdb.d_IMDbID := EmptyString;
     tmdb.d_OriginalLanguage := "en"; tmdb.d_OriginalTitle := "x";
     tmdb.d_Overview := EmptyString; tmdb.d_Popularity := 0%Z;
     tmdb.d_PosterPath := EmptyString; tmdb.d_ReleaseDate := "soon";
     tmdb.d_Runtime := 70000%Z; tmdb.d_Title := "x";
     tmdb.d_VoteAverage := 0%Z; tmdb.d_VoteCount := 0%Z |}.

Definition start_of (w : Canned) : tmdb.St Canned := tmdb.MkSt w [].

(** * Properties *)

Section Properties.
Context {W : Type} `{Backend W}.
Implicit Types (i : activeImport W) (items : list Item) (item : Item).

(** ** The loop of [persistItems] *)

Lemma collect_step_torrents inf imp l x :
  torrents (collect inf imp l x) = torrents l ++ [createTorrentModel inf x].
Proof. unfold collect. by repeat case_decide. Qed.

Lemma collect_step_infoHashes inf imp l x :
  infoHashes (collect inf imp l x) = infoHashes l ++ [InfoHash x].
Proof. unfold collect. by repeat case_decide. Qed.

Lemma collect_torrents inf imp items l :
  torrents (fold_left (collect inf imp) items l)
  = torrents l ++ map (createTorrentModel inf) items.
Proof.
  revert l. induction items as [|x xs IH]; intros l; simpl.
  - by rewrite app_nil_r.
  - by rewrite IH, collect_step_torrents, <- app_assoc.
Qed.

Lemma collect_infoHashes inf imp items l :
  infoHashes (fold_left (collect inf imp) items l)
  = infoHashes l ++ map InfoHash items.
Proof.
  revert l. induction items as [|x xs IH]; intros l; simpl.
  - by rewrite app_nil_r.
  - by rewrite IH, collect_step_infoHashes, <- app_assoc.
Qed.

Lemma collect_inv inf imp l x :
  sources_inv imp l → sources_inv imp (collect inf imp l x).
Proof.
  intros (Hnd & Hmap & Hdis & Hname). unfold collect.
  destruct (decide (Source x ∈ imp)) as [Hin|Hout]; [done|].
  destruct (decide (Source x ∈ sourcesMap l)) as [Hin'|Hout']; [done|].
  unfold sources_inv, keys in *. simpl. rewrite map_app. simpl.
  repeat split.
  - apply NoDup_app. repeat split; [done| |apply NoDup_singleton].
    intros k Hk Hk'. apply list_elem_of_singleton in Hk'. subst k.
    apply Hout', Hmap, Hk.
  - rewrite elem_of_union, elem_of_singleton, elem_of_app,
      list_elem_of_singleton, Hmap. tauto.
  - rewrite elem_of_union, elem_of_singleton, elem_of_app,
      list_elem_of_singleton, Hmap. tauto.
  - intros k Hk. apply elem_of_app in Hk as [Hk|Hk]; [by apply Hdis|].
    apply list_elem_of_singleton in Hk. by subst k.
  - intros s Hs. apply elem_of_app in Hs as [Hs|Hs]; [by apply Hname|].
    apply list_elem_of_singleton in Hs. by subst s.
Qed.

Lemma collect_keys inf imp items l k :
  sources_inv imp l →
  k ∈ keys (sources (fold_left (collect inf imp) items l))
  ↔ k ∈ keys (sources l) ∨ (k ∈ map Source items ∧ k ∉ imp).
Proof.
  revert l. induction items as [|x xs IH]; intros l Hinv; simpl.
  - rewrite elem_of_nil. tauto.
  - rewrite IH by by apply collect_inv.
    rewrite elem_of_cons. destruct Hinv as (_ & Hmap & _ & _).
    unfold collect.
    destruct (decide (Source x ∈ imp)) as [Hin|Hout]; simpl.
    { split; [|intros [?|[[->|?] ?]]; tauto]. tauto. }
    destruct (decide (Source x ∈ sourcesMap l)) as [Hin'|Hout']; simpl.
    { apply Hmap in Hin'.
      split; [tauto|]. intros [?|[[->|?] ?]]; tauto. }
    unfold keys. rewrite map_app, elem_of_app. simpl.
    rewrite list_elem_of_singleton.
    split; [intros [[?| ->]|[? ?]]; tauto|].
    intros [?|[[->|?] ?]]; tauto.
Qed.

Lemma sources_inv_init imp : sources_inv imp (MkLocals [] ∅ [] []).
Proof.
  unfold sources_inv, keys. simpl. split; [apply NoDup_nil_2|].
  split; [intros k; rewrite elem_of_nil; set_solver|].
  split; intros k Hk; by apply elem_of_nil in Hk.
Qed.

Lemma collect_all_inv inf imp items :
  sources_inv imp (collect_all inf imp items).
Proof.
  unfold collect_all. generalize (sources_inv_init imp).
  generalize (MkLocals [] ∅ [] []).
  induction items as [|x xs IH]; intros l Hl; simpl; [done|].
  apply IH. by apply collect_inv.
Qed.

Lemma collect_all_keys inf imp items k :
  k ∈ keys (sources (collect_all inf imp items))
  ↔ k ∈ map Source items ∧ k ∉ imp.
Proof.
  unfold collect_all. rewrite collect_keys by apply sources_inv_init.
  unfold keys. simpl. rewrite elem_of_nil. tauto.
Qed.

(** The sources of a batch: each key of the batch that is not durable yet,
    once. *)
Lemma new_sources_spec i items :
  NoDup (keys (new_sources i items))
  ∧ (∀ k, k ∈ keys (new_sources i items)
          ↔ k ∈ map Source items ∧ k ∉ importedSources i)
  ∧ (∀ s, s ∈ new_sources i items → ts_Name s = Key s).
Proof.
  unfold new_sources.
  destruct (collect_all_inv (info i) (importedSources i) items)
    as (Hnd & _ & _ & Hname).
  split; [done|]. split; [|done].
  intros k. apply collect_all_keys.
Qed.

Lemma batch_torrents_spec i items :
  batch_torrents i items = map (createTorrentModel (info i)) items.
Proof. unfold batch_torrents, collect_all. by rewrite collect_torrents. Qed.

Lemma batch_hashes_spec i items :
  batch_hashes i items = map InfoHash items.
Proof. unfold batch_hashes, collect_all. by rewrite collect_infoHashes. Qed.

Lemma mark_sources_spec srcs i k :
  k ∈ importedSources (mark_sources srcs i)
  ↔ k ∈ importedSources i ∨ k ∈ keys srcs.
Proof.
  unfold mark_sources. simpl. generalize (importedSources i).
  induction srcs as [|s srcs IH]; intros S0; simpl.
  - unfold keys. simpl. rewrite elem_of_nil. tauto.
  - rewrite IH. unfold keys. simpl.
    rewrite elem_of_union, elem_of_singleton, elem_of_cons. tauto.
Qed.

(** ** [persistItems], case by case

    The result and the session after [persistItems], by the replies of the
    backend to the insert, the upsert and the publication. *)
Lemma persistItems_cases items i :
  persistItems items i =
  let ic := insert_calls i items in
  let ts := batch_torrents i items in
  let hs := batch_hashes i items in
  match fst (insert_reply i items) with
  | Some e =>
      (Some e,
       with_bookkeeping (snd (insert_reply i items)) (importedSources i)
         (importedHashes i) (calls i ++ ic) i)
  | None =>
      match fst (upsert_reply i items) with
      | Some e =>
          (Some e,
           with_bookkeeping (snd (upsert_reply i items)) (marked i items)
             (importedHashes i)
             (calls i ++ ic ++ [CallCreateTorrents ts (Some e)]) i)
      | None =>
          match fst (publish_reply i items) with
          | Some e =>
              (Some e,
               with_bookkeeping (snd (publish_reply i items))
                 (marked i items) (importedHashes i)
                 (calls i ++ ic ++ [CallCreateTorrents ts None;
                                    CallPublish hs (Some e)]) i)
          | None =>
              (None,
               with_bookkeeping (snd (publish_reply i items))
                 (marked i items) (importedHashes i ++ hs)
                 (calls i ++ ic ++ [CallCreateTorrents ts None;
                                    CallPublish hs None]) i)
          end
      end
  end.
Proof.
  unfold persistItems, persistItems_body, publish_reply, upsert_reply,
    insert_reply, insert_calls, marked, batch_torrents, batch_hashes,
    new_sources.
  set (l := collect_all (info i) (importedSources i) items).
  destruct i as [bs mw w st cd inf ch buf imp hs errs cs].
  destruct (sources l) as [|s srcs]; simpl;
    unfold bind, call, modify, ret, mark_sources, with_bookkeeping,
      set_world, set_importedSources, set_importedHashes; simpl.
  - destruct (CreateTorrents (torrents l) w) as [[e2|] w2]; simpl;
      [done|].
    destruct (Publish (infoHashes l) w2) as [[e3|] w3]; simpl;
      by rewrite <- ?app_assoc.
  - destruct (CreateSources (s :: srcs) w) as [[e1|] w1]; simpl; [done|].
    destruct (CreateTorrents (torrents l) w1) as [[e2|] w2]; simpl;
      [by rewrite <- ?app_assoc|].
    destruct (Publish (infoHashes l) w2) as [[e3|] w3]; simpl;
      by rewrite <- ?app_assoc.
Qed.

(** [persistItems] writes the world, the durable keys, the committed hashes
    and the log, and nothing else of the session. *)
Lemma persistItems_frame items i :
  let i' := snd (persistItems items i) in
  bufferSize i' = bufferSize i ∧ maxWaitTime i' = maxWaitTime i
  ∧ stopped i' = stopped i ∧ ctxDone i' = ctxDone i ∧ info i' = info i
  ∧ itemChan i' = itemChan i ∧ itemBuffer i' = itemBuffer i
  ∧ errors i' = errors i.
Proof. rewrite persistItems_cases. simpl. by repeat case_match. Qed.

Lemma set_itemChan_same i : set_itemChan (itemChan i) i = i.
Proof. by destruct i. Qed.

(** For a threshold that fits [int], [int(i.bufferSize)] is the threshold. *)
Lemma threshold_in_range i :
  (0 ≤ bufferSize i < 2 ^ 63)%Z → threshold i = bufferSize i.
Proof.
  intros [_ Hlt]. unfold threshold, int_of_uint.
  apply Z.ltb_lt in Hlt. by rewrite Hlt.
Qed.

(** ** The record built for an item *)

(** C8.  [createTorrentModel] builds, for every item, the one torrent that
    carries the item's info hash, name, size and privacy flag, the status
    [FilesStatusNoInfo], and the single source entry made of the item's
    source, the import identifier of the session and the item's publication
    instant.  The hint mirrors the content fields of the item (content type,
    source and id, title, release year and group, episodes, the video
    attributes) when the item's content type is valid, and is left at its zero
    value when it is not; so a torrent has a hint only if the content type is
    valid.  [persistItems] builds exactly one such torrent for every item of
    the batch, in order. *)
Theorem createTorrentModel_spec inf item (imp : gset string) items :
  let t := createTorrentModel inf item in
  t_InfoHash t = InfoHash item ∧ t_Name t = Name item
  ∧ t_Size t = Size item ∧ t_Private t = Private item
  ∧ t_FilesStatus t = FilesStatusNoInfo
  ∧ t_Sources t =
      [ {| tts_Source := Source item;
           tts_ImportID := MkNull (ID inf) true;
           tts_PublishedAt := PublishedAt item |} ]
  ∧ (Valid (ContentType item) = true →
       t_Hint t =
       {| h_ContentType := null_value (ContentType item);
          h_ContentSource := ContentSource item;
          h_ContentID := ContentID item;
          h_Title := Title item;
          h_ReleaseYear := ReleaseYear item;
          h_Episodes := Episodes item;
          h_VideoResolution := VideoResolution item;
          h_VideoSource := VideoSource item;
          h_VideoCodec := VideoCodec item;
          h_Video3d := Video3d item;
          h_VideoModifier := VideoModifier item;
          h_ReleaseGroup := ReleaseGroup item |})
  ∧ (Valid (ContentType item) = false → t_Hint t = zero_TorrentHint)
  ∧ (t_Hint t ≠ zero_TorrentHint → Valid (ContentType item) = true)
  ∧ torrents (collect_all inf imp items) = map (createTorrentModel inf) items
  ∧ length (torrents (collect_all inf imp items)) = length items.
Proof.
  assert (Hall : torrents (collect_all inf imp items)
                 = map (createTorrentModel inf) items).
  { unfold collect_all. by rewrite collect_torrents. }
  rewrite Hall, length_map. intros t. subst t.
  repeat match goal with |- _ ∧ _ => split end; try reflexivity;
    unfold createTorrentModel;
    destruct (Valid (ContentType item)); simpl; try reflexivity;
    try discriminate; congruence.
Qed.

(** What a flush does, by the state of the buffer: the shared facts behind
    the statements about [flushLocked], [buffer] and [Close]. *)
Lemma flushLocked_nil i : itemBuffer i = [] → flushLocked i = i.
Proof. unfold flushLocked. by intros ->. Qed.

Lemma flushLocked_batch i :
  itemBuffer i ≠ [] →
  world (flushLocked i) = world (snd (persistItems (itemBuffer i) i))
  ∧ calls (flushLocked i) = calls (snd (persistItems (itemBuffer i) i))
  ∧ importedSources (flushLocked i)
    = importedSources (snd (persistItems (itemBuffer i) i))
  ∧ importedHashes (flushLocked i)
    = importedHashes (snd (persistItems (itemBuffer i) i))
  ∧ itemBuffer (flushLocked i) = []
  ∧ errors (flushLocked i) =
      errors i ++ match fst (persistItems (itemBuffer i) i) with
                  | Some e => [ {| Items := itemBuffer i; Err := e |} ]
                  | None => []
                  end
  ∧ stopped (flushLocked i) = stopped i
  ∧ ctxDone (flushLocked i) = ctxDone i
  ∧ itemChan (flushLocked i) = itemChan i
  ∧ bufferSize (flushLocked i) = bufferSize i
  ∧ maxWaitTime (flushLocked i) = maxWaitTime i
  ∧ info (flushLocked i) = info i.
Proof.
  intros Hne. unfold flushLocked.
  destruct (itemBuffer i) as [|x xs] eqn:Hbuf; [done|].
  cbn [length Nat.eqb]. rewrite <- Hbuf.
  pose proof (persistItems_frame (itemBuffer i) i) as Hf.
  destruct (persistItems (itemBuffer i) i) as [[e|] i1]; simpl in *;
    destruct Hf as (? & ? & ? & ? & ? & ? & Hb & He);
    rewrite ?Hb, ?He, ?app_nil_r; done.
Qed.

Lemma buffer_below item i :
  (Z.of_nat (length (itemBuffer i ++ [item])) < threshold i)%Z →
  buffer item i = set_itemBuffer (itemBuffer i ++ [item]) i.
Proof.
  intros Hlt. unfold buffer, threshold in *. apply Z.leb_gt in Hlt.
  simpl. simpl in Hlt. by rewrite Hlt.
Qed.

(** ** Flushing *)

(** C3.  A flush of an empty buffer changes nothing: the session, and with it
    the world, the call log and the error list, stays as it is.  A flush of a
    non-empty buffer hands the whole buffer to [persistItems] as one batch
    (the world, the log, the durable keys and the committed hashes are those
    of that one call) and leaves a fresh empty buffer, whether or not
    [persistItems] fails; a failure is appended to the error list with the
    batch, nothing is sent back on the channel, and the session is not
    stopped. *)
Theorem flushLocked_spec i :
  (itemBuffer i = [] → flushLocked i = i)
  ∧ (itemBuffer i ≠ [] →
       let i' := flushLocked i in
       let p := persistItems (itemBuffer i) i in
       world i' = world (snd p) ∧ calls i' = calls (snd p)
       ∧ importedSources i' = importedSources (snd p)
       ∧ importedHashes i' = importedHashes (snd p)
       ∧ itemBuffer i' = []
       ∧ errors i' =
           errors i ++ match fst p with
                       | Some e => [ {| Items := itemBuffer i; Err := e |} ]
                       | None => []
                       end
       ∧ stopped i' = stopped i ∧ ctxDone i' = ctxDone i
       ∧ itemChan i' = itemChan i ∧ bufferSize i' = bufferSize i).
Proof.
  unfold flushLocked. split.
  - intros ->. done.
  - intros Hne. destruct (itemBuffer i) as [|x xs] eqn:Hbuf; [done|].
    cbn [length Nat.eqb]. rewrite <- Hbuf.
    pose proof (persistItems_frame (itemBuffer i) i) as Hf.
    destruct (persistItems (itemBuffer i) i) as [[e|] i1]; simpl in *;
      destruct Hf as (? & ? & ? & ? & ? & ? & Hb & He);
      rewrite ?Hb, ?He, ?app_nil_r; done.
Qed.

(** C7.  [buffer] appends the record and compares the new count with the
    threshold [int(i.bufferSize)] in the same critical section.  When the
    count has reached the threshold, [buffer] is the flush of exactly the
    buffered records with the new one: they are the one batch handed to
    [persistItems], and the buffer is empty afterwards.  Below the threshold
    [buffer] only appends: no call is issued and nothing else changes. *)
Theorem buffer_threshold i item :
  let buf := itemBuffer i ++ [item] in
  let i1 := set_itemBuffer buf i in
  ((threshold i ≤ Z.of_nat (length buf))%Z →
     buffer item i = flushLocked i1
     ∧ itemBuffer (buffer item i) = []
     ∧ calls (buffer item i) = calls (snd (persistItems buf i1))
     ∧ world (buffer item i) = world (snd (persistItems buf i1)))
  ∧ ((Z.of_nat (length buf) < threshold i)%Z →
     buffer item i = i1 ∧ calls (buffer item i) = calls i
     ∧ world (buffer item i) = world i
     ∧ itemBuffer (buffer item i) = buf).
Proof.
  simpl. unfold buffer, threshold. split.
  - intros Hle. apply Z.leb_le in Hle. simpl. simpl in Hle. rewrite Hle.
    split; [done|].
    assert (Hne : itemBuffer (set_itemBuffer (itemBuffer i ++ [item]) i)
                  ≠ []).
    { simpl. by destruct (itemBuffer i). }
    destruct (flushLocked_batch
                (set_itemBuffer (itemBuffer i ++ [item]) i) Hne)
      as (Hw & Hc & _ & _ & Hb & _). done.
  - intros Hlt. apply Z.leb_gt in Hlt. simpl. simpl in Hlt. by rewrite Hlt.
Qed.

(** ** [Import] *)

(** C10.  [Import] of no record on a session that is not stopped returns nil
    and leaves the session as it is: nothing is sent on the channel, and the
    buffer, the durable keys, the committed hashes and the error list keep
    their values. *)
Theorem Import_nothing i :
  stopped i = false → Import [] i = Some (None, i).
Proof.
  intros Hs. unfold Import. rewrite Hs. simpl. by rewrite set_itemChan_same.
Qed.

(** ** The bookkeeping of [persistItems] *)

Lemma marked_spec i items k :
  k ∈ marked i items ↔ k ∈ importedSources i ∨ k ∈ map Source items.
Proof.
  unfold marked. rewrite mark_sources_spec.
  destruct (new_sources_spec i items) as (_ & Hk & _). rewrite Hk.
  destruct (decide (k ∈ importedSources i)); tauto.
Qed.

(** C1, as the program has it.  The hashes of the batch are appended to the
    committed list exactly when the insert, the upsert and the publication
    all succeed, which is exactly when [persistItems] returns nil; when any of
    them fails the committed list is not written.  The keys of the batch are
    durable after the call exactly when they were before or the
    create-or-ignore insert succeeded, whatever the upsert and the
    publication then do; when the insert fails no key is marked. *)
Theorem persistItems_bookkeeping items i :
  let p := persistItems items i in
  let inserted := succeeded (insert_reply i items) in
  let all_ok := inserted && succeeded (upsert_reply i items)
                && succeeded (publish_reply i items) in
  (fst p = None ↔ all_ok = true)
  ∧ importedHashes (snd p) =
      (if all_ok then importedHashes i ++ map InfoHash items
       else importedHashes i)
  ∧ (∀ k, k ∈ importedSources (snd p)
          ↔ k ∈ importedSources i
            ∨ (inserted = true ∧ k ∈ map Source items)).
Proof.
  simpl. rewrite persistItems_cases. unfold succeeded.
  rewrite <- batch_hashes_spec with (i := i).
  destruct (fst (insert_reply i items)) as [e1|]; simpl.
  { repeat split; try done. - tauto. - by intros [?|[? _]]. }
  destruct (fst (upsert_reply i items)) as [e2|]; simpl.
  { split; [done|]. split; [done|]. intros k. rewrite marked_spec. tauto. }
  destruct (fst (publish_reply i items)) as [e3|]; simpl.
  { split; [done|]. split; [done|]. intros k. rewrite marked_spec. tauto. }
  split; [done|]. split; [done|]. intros k. rewrite marked_spec. tauto.
Qed.

(** C4.  When the insert and the upsert of the batch in the buffer succeed
    and the publication fails with [e]: [persistItems] returns [e]; the log
    of the call ends with the two writes and the failed publication, and the
    world is the one the publication left, so nothing is issued to undo the
    writes, and the keys of the batch stay durable; the flush appends exactly
    one entry to the error list, [e] with the records of the batch; the
    committed hashes are not written. *)
Theorem notify_failure_isolated i e :
  itemBuffer i ≠ [] →
  fst (insert_reply i (itemBuffer i)) = None →
  fst (upsert_reply i (itemBuffer i)) = None →
  fst (publish_reply i (itemBuffer i)) = Some e →
  let batch := itemBuffer i in
  let p := persistItems batch i in
  let i' := flushLocked i in
  fst p = Some e
  ∧ calls (snd p) =
      calls i ++ insert_calls i batch
      ++ [CallCreateTorrents (map (createTorrentModel (info i)) batch) None;
          CallPublish (map InfoHash batch) (Some e)]
  ∧ world (snd p) = snd (publish_reply i batch)
  ∧ calls i' = calls (snd p) ∧ world i' = world (snd p)
  ∧ (∀ k, k ∈ importedSources i'
          ↔ k ∈ importedSources i ∨ k ∈ map Source batch)
  ∧ errors i' = errors i ++ [ {| Items := batch; Err := e |} ]
  ∧ importedHashes i' = importedHashes i
  ∧ itemBuffer i' = [].
Proof.
  intros Hne H1 H2 H3. simpl.
  destruct (flushLocked_batch i Hne) as (Hw & Hc & Hs & Hh & Hb & He & _).
  rewrite Hw, Hc, Hh, Hb, He. clear Hw Hc Hh Hb He.
  assert (Hk : ∀ k, k ∈ importedSources (flushLocked i)
                    ↔ k ∈ importedSources i ∨ k ∈ map Source (itemBuffer i)).
  { intros k. rewrite Hs. clear Hs.
    rewrite persistItems_cases. simpl. rewrite H1, H2, H3. simpl.
    apply marked_spec. }
  clear Hs. rewrite persistItems_cases. simpl. rewrite H1, H2, H3. simpl.
  rewrite batch_torrents_spec, batch_hashes_spec. done.
Qed.

(** ** The life cycle: [Close] and what follows it *)

(** A flush writes neither the flags nor the channel nor the configuration. *)
Lemma flushLocked_frame i :
  stopped (flushLocked i) = stopped i
  ∧ ctxDone (flushLocked i) = ctxDone i
  ∧ itemChan (flushLocked i) = itemChan i
  ∧ bufferSize (flushLocked i) = bufferSize i.
Proof.
  destruct (itemBuffer i) as [|x xs] eqn:Hbuf.
  - by rewrite flushLocked_nil.
  - assert (Hne : itemBuffer i ≠ []) by by rewrite Hbuf.
    destruct (flushLocked_batch i Hne)
      as (_ & _ & _ & _ & _ & _ & ? & ? & ? & ? & _). done.
Qed.

Lemma flushLocked_empty i : itemBuffer (flushLocked i) = [].
Proof.
  destruct (itemBuffer i) as [|x xs] eqn:Hbuf.
  - by rewrite flushLocked_nil.
  - assert (Hne : itemBuffer i ≠ []) by by rewrite Hbuf.
    destruct (flushLocked_batch i Hne) as (_ & _ & _ & _ & ? & _). done.
Qed.

Lemma buffer_frame item i :
  stopped (buffer item i) = stopped i
  ∧ itemChan (buffer item i) = itemChan i.
Proof.
  unfold buffer. case_match.
  - destruct (flushLocked_frame (set_itemBuffer (itemBuffer i ++ [item]) i))
      as (? & _ & ? & _). done.
  - done.
Qed.

Lemma send_all_open items c :
  chanClosed c = false →
  ∃ c', send_all items c = Some c' ∧ chanClosed c' = false.
Proof.
  revert c. induction items as [|x xs IH]; intros c Hc; simpl.
  - by exists c.
  - unfold chan_send. rewrite Hc. by apply IH.
Qed.

(** [Close] returns on every session whose channel is closed only when the
    session is stopped, and leaves a stopped session. *)
Lemma Close_returns i :
  chan_ok i →
  ∃ i1, Close i = Some (OrNil (errors i1), i1)
        ∧ stopped i1 = true ∧ chan_ok i1 ∧ itemBuffer i1 = [].
Proof.
  unfold chan_ok, Close. intros Hok.
  destruct (flushLocked_frame i) as (Hs & _ & Hc & _).
  pose proof (flushLocked_empty i) as Hb.
  rewrite Hs. destruct (stopped i) eqn:Hst; simpl.
  - exists (flushLocked i). by rewrite Hs, Hc, Hok.
  - unfold chan_close. rewrite Hc, Hok. simpl.
    exists (set_itemChan
              {| chanClosed := true; chanSent := chanSent (itemChan i) |}
              (set_ctxDone true (set_stopped true (flushLocked i)))).
    done.
Qed.

(** No operation panics on such a session, and none reopens a stopped one. *)
Lemma step_ok o i :
  chan_ok i →
  ∃ i', step o i = Some i' ∧ chan_ok i'
        ∧ (stopped i = true → stopped i' = true).
Proof.
  intros Hok. destruct o as [items|item| | |]; simpl.
  - unfold Import. destruct (stopped i) eqn:Hst; simpl.
    + by exists i.
    + unfold chan_ok in Hok. rewrite Hst in Hok.
      destruct (send_all_open items _ Hok) as (c' & -> & Hc'). simpl.
      eexists. split; [done|]. unfold chan_ok. simpl.
      by rewrite Hc', Hst.
  - exists (buffer item i). destruct (buffer_frame item i) as [Hs Hc].
    unfold chan_ok in *. by rewrite Hs, Hc.
  - exists (flush i). unfold flush.
    destruct (flushLocked_frame i) as (Hs & _ & Hc & _).
    unfold chan_ok in *. by rewrite Hs, Hc.
  - destruct (Close_returns i Hok) as (i1 & -> & Hs & Hok1 & _). simpl.
    by exists i1.
  - by exists i.
Qed.

Lemma steps_ok os i :
  chan_ok i →
  ∃ i', steps os i = Some i' ∧ chan_ok i'
        ∧ (stopped i = true → stopped i' = true).
Proof.
  revert i. induction os as [|o os IH]; intros i Hok; simpl.
  - by exists i.
  - destruct (step_ok o i Hok) as (i1 & -> & Hok1 & Hst1).
    destruct (IH i1 Hok1) as (i2 & -> & Hok2 & Hst2).
    exists i2. auto.
Qed.


(** C5.  [Close] returns, and on the session it leaves, whatever operations
    follow (late [buffer] goroutines, timer flushes, further calls of
    [Import], [Close] or [Drain]), every [Import] returns [ErrImportClosed]
    and leaves the session exactly as it found it: nothing is sent on the
    channel or buffered, and the committed hashes, the durable keys and the
    error list are not written. *)
Theorem Import_after_Close i :
  chan_ok i →
  ∃ r i1, Close i = Some (r, i1)
    ∧ ∀ os, ∃ i2, steps os i1 = Some i2
        ∧ ∀ items, Import items i2 = Some (Some ErrImportClosed, i2).
Proof.
  intros Hok. destruct (Close_returns i Hok) as (i1 & HC & Hst & Hok1 & _).
  exists (OrNil (errors i1)), i1. split; [done|]. intros os.
  destruct (steps_ok os i1 Hok1) as (i2 & Hsteps & _ & Hst2).
  exists i2. split; [done|]. intros items.
  unfold Import. by rewrite (Hst2 Hst).
Qed.


(** ** The log of inserts *)

Lemma issued_for_cons k c cs :
  issued_for k (c :: cs)
  = (if inserts_key k c then 1 else 0) + issued_for k cs.
Proof.
  unfold issued_for. rewrite filter_cons.
  destruct (inserts_key k c); case_decide; simpl; congruence.
Qed.

Lemma failed_for_cons k c cs :
  failed_for k (c :: cs)
  = (if fails_key k c then 1 else 0) + failed_for k cs.
Proof.
  unfold failed_for. rewrite filter_cons.
  destruct (fails_key k c); case_decide; simpl; congruence.
Qed.

Lemma issued_for_app k cs1 cs2 :
  issued_for k (cs1 ++ cs2) = issued_for k cs1 + issued_for k cs2.
Proof. unfold issued_for. by rewrite filter_app, length_app. Qed.

Lemma failed_for_app k cs1 cs2 :
  failed_for k (cs1 ++ cs2) = failed_for k cs1 + failed_for k cs2.
Proof. unfold failed_for. by rewrite filter_app, length_app. Qed.

Lemma fails_key_inserts k c : fails_key k c = true → inserts_key k c = true.
Proof. destruct c as [srcs [e|]| |]; simpl; done. Qed.

Lemma failed_le_issued k cs : failed_for k cs ≤ issued_for k cs.
Proof.
  induction cs as [|c cs IH]; [done|].
  rewrite issued_for_cons, failed_for_cons.
  pose proof (fails_key_inserts k c).
  destruct (fails_key k c), (inserts_key k c); simpl; try lia.
Qed.

(** A log with an insert that carried [k] and succeeded. *)
Lemma success_counts k l1 srcs l2 :
  k ∈ keys srcs →
  failed_for k (l1 ++ CallCreateSources srcs None :: l2)
  < issued_for k (l1 ++ CallCreateSources srcs None :: l2).
Proof.
  intros Hk. rewrite issued_for_app, failed_for_app,
    issued_for_cons, failed_for_cons. simpl.
  rewrite bool_decide_eq_true_2 by done.
  pose proof (failed_le_issued k l1). pose proof (failed_le_issued k l2).
  lia.
Qed.

(** Where an element of a concatenation lies. *)
Lemma split_app {A} (a b l1 l2 : list A) (c : A) :
  a ++ b = l1 ++ c :: l2 →
  (∃ m, a = l1 ++ c :: m ∧ l2 = m ++ b)
  ∨ (∃ m, l1 = a ++ m ∧ b = m ++ c :: l2).
Proof.
  revert l1. induction a as [|x a IH]; intros l1 Heq; simpl in *.
  - right. by exists l1.
  - destruct l1 as [|y l1]; simpl in *.
    + injection Heq as -> <-. left. by exists a.
    + injection Heq as -> Heq. destruct (IH _ Heq) as [(m & -> & ->)|(m & -> & ->)].
      * left. by exists m.
      * right. by exists m.
Qed.

Lemma no_insert_counts k tail :
  Forall no_insert tail → issued_for k tail = 0 ∧ failed_for k tail = 0.
Proof.
  induction 1 as [|c cs Hc _ [IH1 IH2]]; [done|].
  rewrite issued_for_cons, failed_for_cons, IH1, IH2.
  by destruct c.
Qed.

(** What [persistItems] adds to the log and to the durable keys. *)
Lemma persistItems_log items i :
  ∃ tail,
    calls (snd (persistItems items i))
    = calls i ++ insert_calls i items ++ tail
    ∧ Forall no_insert tail
    ∧ importedSources (snd (persistItems items i))
      = match fst (insert_reply i items) with
        | None => marked i items
        | Some _ => importedSources i
        end.
Proof.
  rewrite persistItems_cases. simpl.
  destruct (fst (insert_reply i items)) as [e1|]; simpl.
  { exists []. by rewrite app_nil_r. }
  destruct (fst (upsert_reply i items)) as [e2|]; simpl.
  { eexists. split; [done|]. split; [|done]. by repeat constructor. }
  destruct (fst (publish_reply i items)) as [e3|]; simpl.
  - eexists. split; [done|]. split; [|done]. by repeat constructor.
  - eexists. split; [done|]. split; [|done]. by repeat constructor.
Qed.

Lemma insert_calls_cases i items :
  (new_sources i items = [] ∧ insert_calls i items = []
   ∧ fst (insert_reply i items) = None)
  ∨ insert_calls i items
    = [CallCreateSources (new_sources i items) (fst (insert_reply i items))].
Proof.
  unfold insert_calls, insert_reply.
  destruct (new_sources i items); [by left|by right].
Qed.

Lemma log_inv_ext i (j : activeImport W) :
  calls j = calls i → importedSources j = importedSources i →
  log_inv i → log_inv j.
Proof.
  unfold log_inv, log_inv_at. intros -> ->. done.
Qed.

(** [persistItems] keeps the log invariant. *)
Lemma persistItems_log_inv items i :
  log_inv i → log_inv (snd (persistItems items i)).
Proof.
  intros [Hnd Hinv].
  destruct (persistItems_log items i) as (tail & Hcalls & Htail & Hdur).
  destruct (new_sources_spec i items) as (Hnodup & Hkeys & _).
  split.
  - (* every insert of the log has distinct keys *)
    intros srcs r. rewrite Hcalls, !elem_of_app.
    intros [Hin|[Hin|Hin]].
    + by eapply Hnd.
    + destruct (insert_calls_cases i items) as [(_ & Hic & _)|Hic];
        rewrite Hic in Hin.
      * by apply elem_of_nil in Hin.
      * apply list_elem_of_singleton in Hin. by injection Hin as -> _.
    + rewrite Forall_forall in Htail. by apply Htail in Hin.
  - intros k. destruct (Hinv k) as (HA & HA' & HB & HC).
    destruct (no_insert_counts k tail Htail) as [Ht1 Ht2].
    assert (Hmono : k ∈ importedSources i →
                    k ∈ importedSources (snd (persistItems items i))).
    { rewrite Hdur. destruct (fst (insert_reply i items)); [done|].
      rewrite marked_spec. tauto. }
    unfold log_inv_at. rewrite Hcalls, !issued_for_app, !failed_for_app,
      Ht1, Ht2, !Nat.add_0_r.
    destruct (insert_calls_cases i items) as [(Hnil & Hic & Hr)|Hic].
    + (* no insert is issued *)
      rewrite Hic. cbn [issued_for failed_for filter length app].
      rewrite !Nat.add_0_r.
      assert (Hsame : k ∈ importedSources (snd (persistItems items i))
                      ↔ k ∈ importedSources i).
      { rewrite Hdur, Hr. unfold marked. rewrite Hnil.
        rewrite mark_sources_spec. unfold keys. simpl.
        rewrite elem_of_nil. tauto. }
      rewrite Hsame. repeat split; try done.
      intros l1 srcs l2 Heq Hk. apply split_app in Heq
        as [(m & Hcs & ->)|(m & -> & Hm)].
      * rewrite issued_for_app, Ht1. erewrite HC; done.
      * rewrite Forall_forall in Htail.
        assert (Hin : CallCreateSources srcs None ∈ tail).
        { rewrite Hm. apply elem_of_app. right. by left. }
        by apply Htail in Hin.
    + (* the insert of the new sources is issued *)
      rewrite Hic, issued_for_cons, failed_for_cons.
      cbn [issued_for failed_for filter length app inserts_key fails_key].
      rewrite !Nat.add_0_r.
      destruct (decide (k ∈ keys (new_sources i items))) as [Hin|Hout].
      * (* [k] is carried: it was not durable, so no insert had succeeded *)
        assert (Hnot : k ∉ importedSources i) by (by apply Hkeys in Hin as [_ ?]).
        specialize (HA Hnot).
        rewrite Hdur.
        destruct (fst (insert_reply i items)) as [e|] eqn:Hr;
          rewrite ?bool_decide_eq_true_2 by done.
        -- repeat split; try lia; try done.
           intros l1 srcs l2 Heq Hk. exfalso.
           apply split_app in Heq as [(m & Hcs & ->)|(m & -> & Hm)].
           ++ pose proof (success_counts k l1 srcs m Hk) as Hlt.
              rewrite <- Hcs in Hlt. lia.
           ++ destruct m as [|c m]; [done|]. injection Hm as _ Hm.
              rewrite Forall_forall in Htail.
              assert (Hin' : CallCreateSources srcs None ∈ tail).
              { rewrite Hm. apply elem_of_app. right. by left. }
              by apply Htail in Hin'.
        -- split; [intros Hno; exfalso; apply Hno, marked_spec; right;
                   by apply Hkeys in Hin as [? _]|].
           split; [lia|]. split; [lia|].
           intros l1 srcs l2 Heq Hk.
           apply split_app in Heq as [(m & Hcs & ->)|(m & -> & Hm)].
           ++ exfalso. pose proof (success_counts k l1 srcs m Hk) as Hlt.
              rewrite <- Hcs in Hlt. lia.
           ++ destruct m as [|c m].
              ** injection Hm as _ <-. done.
              ** injection Hm as _ Hm. rewrite Forall_forall in Htail.
                 assert (Hin' : CallCreateSources srcs None ∈ tail).
                 { rewrite Hm. apply elem_of_app. right. by left. }
                 by apply Htail in Hin'.
      * (* [k] is not carried *)
        rewrite !bool_decide_eq_false_2 by done.
        assert (Hsame : k ∈ importedSources (snd (persistItems items i))
                        ↔ k ∈ importedSources i).
        { rewrite Hdur. destruct (fst (insert_reply i items)); [done|].
          unfold marked. rewrite mark_sources_spec. tauto. }
        rewrite Hsame.
        destruct (fst (insert_reply i items)) as [e|] eqn:Hr; simpl;
          rewrite ?Nat.add_0_r.
        -- repeat split; try done.
           intros l1 srcs l2 Heq Hk.
           apply split_app in Heq as [(m & Hcs & ->)|(m & -> & Hm)].
           ++ rewrite !issued_for_app, issued_for_cons, Ht1. simpl.
              rewrite bool_decide_eq_false_2 by done.
              erewrite HC; done.
           ++ exfalso. destruct m as [|c m]; [done|]. injection Hm as _ Hm.
              rewrite Forall_forall in Htail.
              assert (Hin' : CallCreateSources srcs None ∈ tail).
              { rewrite Hm. apply elem_of_app. right. by left. }
              by apply Htail in Hin'.
        -- repeat split; try done.
           intros l1 srcs l2 Heq Hk.
           apply split_app in Heq as [(m & Hcs & ->)|(m & -> & Hm)].
           ++ rewrite !issued_for_app, issued_for_cons, Ht1. simpl.
              rewrite bool_decide_eq_false_2 by done.
              erewrite HC; done.
           ++ exfalso. destruct m as [|c m].
              ** injection Hm as <- _. done.
              ** injection Hm as _ Hm. rewrite Forall_forall in Htail.
                 assert (Hin' : CallCreateSources srcs None ∈ tail).
                 { rewrite Hm. apply elem_of_app. right. by left. }
                 by apply Htail in Hin'.
Qed.

Lemma flushLocked_log_inv i : log_inv i → log_inv (flushLocked i).
Proof.
  intros Hinv. destruct (itemBuffer i) as [|x xs] eqn:Hbuf.
  - by rewrite flushLocked_nil.
  - assert (Hne : itemBuffer i ≠ []) by by rewrite Hbuf.
    destruct (flushLocked_batch i Hne) as (_ & Hc & Hs & _).
    eapply log_inv_ext; [exact Hc|exact Hs|].
    by apply persistItems_log_inv.
Qed.

Lemma step_log_inv o i i' : step o i = Some i' → log_inv i → log_inv i'.
Proof.
  destruct o as [items|item| | |]; simpl; intros Hstep Hinv.
  - unfold Import in Hstep. destruct (stopped i).
    + by injection Hstep as <-.
    + destruct (send_all items (itemChan i)); [|done].
      injection Hstep as <-. by eapply log_inv_ext.
  - injection Hstep as <-. unfold buffer. case_match.
    + apply flushLocked_log_inv. by eapply log_inv_ext.
    + by eapply log_inv_ext.
  - injection Hstep as <-. by apply flushLocked_log_inv.
  - unfold Close in Hstep. apply flushLocked_log_inv in Hinv.
    destruct (stopped (flushLocked i)); simpl in Hstep.
    + by injection Hstep as <-.
    + destruct (chan_close (itemChan (flushLocked i))); [|done].
      injection Hstep as <-. by eapply log_inv_ext.
  - by injection Hstep as <-.
Qed.

Lemma steps_log_inv os i i' : steps os i = Some i' → log_inv i → log_inv i'.
Proof.
  revert i. induction os as [|o os IH]; simpl; intros i Hsteps Hinv.
  - by injection Hsteps as <-.
  - destruct (step o i) as [i1|] eqn:Hstep; [|done].
    eapply IH; [done|]. by eapply step_log_inv.
Qed.

Lemma New_log_inv size wait (w : W) inf : log_inv (New size wait w inf).
Proof.
  split; simpl.
  - intros srcs r Hin. by apply elem_of_nil in Hin.
  - intros k. unfold log_inv_at. simpl.
    split; [done|]. split; [intros Hk; by apply elem_of_empty in Hk|].
    split; [unfold issued_for, failed_for; simpl; lia|].
    intros l1 srcs l2 Heq. by destruct l1.
Qed.

(** C2, as the program has it.  In every session, whatever the operations
    and whatever the backend answers, for every source key: no insert that is
    issued carries a key twice; the insert of a batch carries a key exactly
    when the batch has it and it is not durable, so a durable key, like a key
    collected earlier in the batch, is left out; a key is durable exactly
    when an insert that carried it has succeeded; hence once an insert that
    carried the key has succeeded no later insert of the session carries it.
    Across all the batches the key is carried by at most one insert beside
    those that failed, and by at most one insert when none failed.  An insert
    that failed has marked nothing, and the next batch carries its keys
    again. *)
Theorem source_insert_succeeds_at_most_once size wait (w : W) inf os i k :
  steps os (New size wait w inf) = Some i →
  (∀ srcs r, CallCreateSources srcs r ∈ calls i → NoDup (keys srcs))
  ∧ (k ∈ importedSources i
     ↔ failed_for k (calls i) < issued_for k (calls i))
  ∧ (∀ items,
       NoDup (keys (new_sources i items))
       ∧ (k ∈ keys (new_sources i items)
          ↔ k ∈ map Source items ∧ k ∉ importedSources i))
  ∧ (∀ l1 srcs l2,
       calls i = l1 ++ CallCreateSources srcs None :: l2 →
       k ∈ keys srcs → issued_for k l2 = 0)
  ∧ issued_for k (calls i) ≤ 1 + failed_for k (calls i)
  ∧ (failed_for k (calls i) = 0 → issued_for k (calls i) ≤ 1).
Proof.
  intros Hsteps.
  destruct (steps_log_inv _ _ _ Hsteps (New_log_inv size wait w inf))
    as [Hnd Hinv].
  destruct (Hinv k) as (HA & HA' & HB & HC).
  split; [done|]. split.
  { split; [done|]. intros Hlt.
    destruct (decide (k ∈ importedSources i)) as [|Hno]; [done|].
    apply HA in Hno. lia. }
  split; [|split; [done|split; [done|lia]]].
  intros items. destruct (new_sources_spec i items) as (? & Hk & _).
  split; [done|]. apply Hk.
Qed.

(** ** The scheduler loop under a trickle of records *)

(** A record that arrives before the timer of the current pass fires is
    buffered, and the next pass starts a new timer at the instant of the
    arrival.  So while records keep arriving less than [maxWaitTime] apart,
    and the buffer stays below the threshold, no pass of the loop ever takes
    the timer branch: however many records [n] have arrived, nothing has been
    flushed and all of them are still in the buffer. *)
Lemma trickle_starves_timer n :
  ∀ (start gap c : Z) i,
    (0 ≤ gap < maxWaitTime i)%Z →
    (c ≤ start < c + maxWaitTime i)%Z →
    stopped i = false → ctxDone i = false →
    chanClosed (itemChan i) = false →
    (Z.of_nat (length (itemBuffer i) + n) < threshold i)%Z →
    ∃ s, run n (trickle start gap n) (MkSched i c true) = Some ([], s)
         ∧ looping s = true
         ∧ calls (sess s) = calls i ∧ world (sess s) = world i
         ∧ itemBuffer (sess s) = itemBuffer i ++ replicate n itemA
         ∧ (0 < n → (clock s = start + gap * (Z.of_nat n - 1))%Z).
Proof.
  induction n as [|n IH]; intros start gap c i Hgap Hstart Hst Hctx Hch Hlen.
  - simpl. eexists. split; [done|]. simpl. rewrite app_nil_r.
    repeat split; try done. lia.
  - cbn [run trickle looping]. unfold select. cbn [sess clock].
    rewrite Hctx.
    assert (Hlt : (start <? c + maxWaitTime i)%Z = true)
      by (apply Z.ltb_lt; lia).
    rewrite Hlt. unfold Import. rewrite Hst. simpl. unfold chan_send.
    rewrite Hch. simpl.
    set (i1 := set_itemChan _ i).
    assert (Hbelow : buffer itemA i1
                     = set_itemBuffer (itemBuffer i1 ++ [itemA]) i1).
    { apply buffer_below. unfold threshold in *. subst i1. simpl.
      rewrite length_app. simpl. lia. }
    rewrite Hbelow.
    set (i2 := set_itemBuffer _ i1).
    destruct (IH (start + gap)%Z gap (Z.max c start) i2)
      as (s & Hrun & Hloop & Hcalls & Hworld & Hbuf & Hclock).
    + by subst i2 i1.
    + subst i2 i1. simpl. lia.
    + by subst i2 i1.
    + by subst i2 i1.
    + by subst i2 i1.
    + unfold threshold in *. subst i2 i1. simpl. rewrite length_app. simpl.
      lia.
    + exists s. split; [exact Hrun|]. split; [done|].
      split; [by rewrite Hcalls|]. split; [by rewrite Hworld|].
      split.
      * rewrite Hbuf. subst i2 i1. simpl. by rewrite <- app_assoc.
      * intros _. destruct n as [|n].
        -- simpl in Hrun. injection Hrun as <-. simpl. lia.
        -- rewrite Hclock by lia. lia.
Qed.

(** With no arrival before the timer fires, the pass flushes at
    [clock + maxWaitTime]. *)
Lemma idle_pass_flushes c i :
  ctxDone i = false →
  select [] (MkSched i c true)
  = Some ([], MkSched (flush i) (c + maxWaitTime i) true).
Proof. intros Hctx. unfold select. simpl. by rewrite Hctx. Qed.

End Properties.

(** * The theorems at concrete sessions *)

(** C1, as the spec states it, fails: the insert of source [a] succeeds and
    the upsert fails, so [persistItems] returns the error of the upsert, and
    yet [a], which was not durable, is. *)
Lemma persistItems_marks_before_upsert :
  fst (persistItems [itemA] (session 3 [None; Some "upsert failed"]))
  = Some "upsert failed"
  ∧ ("a" ∉ importedSources (session 3 [None; Some "upsert failed"]))
  ∧ ("a" ∈ importedSources
            (snd (persistItems [itemA]
                    (session 3 [None; Some "upsert failed"]))))
  ∧ ¬ (importedSources
         (snd (persistItems [itemA] (session 3 [None; Some "upsert failed"])))
       = importedSources (session 3 [None; Some "upsert failed"])).
Proof.
  assert (Hin : "a" ∈ importedSources
                  (snd (persistItems [itemA]
                          (session 3 [None; Some "upsert failed"])))).
  { rewrite persistItems_cases. simpl. apply marked_spec. right. by left. }
  split; [reflexivity|]. split; [apply not_elem_of_empty|].
  split; [exact Hin|].
  intros Heq. rewrite Heq in Hin. by apply not_elem_of_empty in Hin.
Qed.

(** C2, as the spec states it, fails: the insert of the first batch fails,
    so it marks no key, and the insert of the second batch carries the key
    [a] again; two inserts of the session carry it. *)
Lemma failed_insert_reissued :
  ∃ i, steps retry_ops (session 1 [Some "down"]) = Some i
       ∧ issued_for "a" (calls i) = 2.
Proof. eexists. split; [reflexivity|]. reflexivity. Qed.

(** The amended C2 at the session of [failed_insert_reissued]: the insert
    that failed is followed by one that succeeds, and by no other. *)
Lemma source_insert_succeeds_at_most_once_witness :
  ∃ i, steps retry_ops (session 1 [Some "down"]) = Some i
       ∧ issued_for "a" (calls i) ≤ 1 + failed_for "a" (calls i).
Proof.
  eexists. split; [reflexivity|].
  eapply (source_insert_succeeds_at_most_once 1 10 [Some "down"] (MkInfo "job")
            retry_ops _ "a").
  reflexivity.
Defined.

(** C3 at an empty buffer, and at a buffer of one record whose insert
    fails. *)
Lemma flushLocked_spec_witness :
  (itemBuffer (session 3 []) = []
   ∧ flushLocked (session 3 []) = session 3 [])
  ∧ (buffered [itemA] (session 3 [Some "down"])
     = buffered [itemA] (session 3 [Some "down"])
     ∧ itemBuffer (flushLocked (buffered [itemA] (session 3 [Some "down"])))
       = []
     ∧ errors (flushLocked (buffered [itemA] (session 3 [Some "down"])))
       = [ {| Items := [itemA]; Err := "down" |} ]).
Proof.
  split.
  - split; [reflexivity|].
    apply (proj1 (flushLocked_spec (session 3 []))). reflexivity.
  - split; [reflexivity|].
    assert (Hne : itemBuffer (buffered [itemA] (session 3 [Some "down"]))
                  ≠ []) by discriminate.
    destruct (proj2 (flushLocked_spec
                       (buffered [itemA] (session 3 [Some "down"]))) Hne)
      as (_ & _ & _ & _ & Hb & He & _).
    split; [exact Hb|exact He].
Defined.

(** C4 at a batch of one record whose publication fails. *)
Lemma notify_failure_isolated_witness :
  errors (flushLocked
            (buffered [itemA] (session 3 [None; None; Some "queue down"])))
  = [ {| Items := [itemA]; Err := "queue down" |} ]
  ∧ importedHashes
      (flushLocked
         (buffered [itemA] (session 3 [None; None; Some "queue down"])))
    = [].
Proof.
  assert (Hne : itemBuffer
                  (buffered [itemA]
                     (session 3 [None; None; Some "queue down"])) ≠ [])
    by discriminate.
  assert (H1 : fst (insert_reply
                      (buffered [itemA]
                         (session 3 [None; None; Some "queue down"]))
                      [itemA]) = None) by reflexivity.
  assert (H2 : fst (upsert_reply
                      (buffered [itemA]
                         (session 3 [None; None; Some "queue down"]))
                      [itemA]) = None) by reflexivity.
  assert (H3 : fst (publish_reply
                      (buffered [itemA]
                         (session 3 [None; None; Some "queue down"]))
                      [itemA]) = Some "queue down") by reflexivity.
  destruct (notify_failure_isolated
              (buffered [itemA] (session 3 [None; None; Some "queue down"]))
              "queue down" Hne H1 H2 H3)
    as (_ & _ & _ & _ & _ & _ & He & Hh & _).
  split; [exact He|exact Hh].
Defined.

(** C5 at a fresh session. *)
Lemma Import_after_Close_witness :
  chan_ok (session 3 [])
  ∧ ∃ r i1, Close (session 3 []) = Some (r, i1)
      ∧ ∀ os, ∃ i2, steps os i1 = Some i2
          ∧ ∀ items, Import items i2 = Some (Some ErrImportClosed, i2).
Proof.
  split; [reflexivity|]. apply Import_after_Close. reflexivity.
Defined.


(** C7 at the threshold 1, which the first record reaches, and at the
    threshold 3, which it does not. *)
Lemma buffer_threshold_witness :
  itemBuffer (buffer itemA (session 1 [])) = []
  ∧ buffer itemA (session 3 []) = buffered [itemA] (session 3 []).
Proof.
  split.
  - apply (proj1 (buffer_threshold (session 1 []) itemA)).
    vm_compute. discriminate.
  - apply (proj2 (buffer_threshold (session 3 []) itemA)).
    vm_compute. reflexivity.
Defined.

(** C10 at a fresh session. *)
Lemma Import_nothing_witness :
  stopped (session 3 []) = false
  ∧ Import [] (session 3 []) = Some (None, session 3 []).
Proof.
  split; [reflexivity|]. apply Import_nothing. reflexivity.
Defined.

(** C9 fails on the program.  Wait time 10, threshold 1000, a record every 9
    units of time from instant 9: after twenty passes of the loop, at instant
    180, no pass has taken the timer branch; no call has been issued, and the
    twenty records, the first of which arrived 171 units of time ago, are all
    still in the buffer. *)
Theorem trickle_postpones_timed_flush :
  run 20 (trickle 9 9 20) trickle_start = Some ([], trickle_end)
  ∧ calls (sess trickle_end) = []
  ∧ itemBuffer (sess trickle_end) = replicate 20 itemA
  ∧ (maxWaitTime (sess trickle_end) < clock trickle_end - 9)%Z.
Proof.
  split; [vm_compute; reflexivity|]. split; [reflexivity|].
  split; [reflexivity|]. vm_compute. reflexivity.
Qed.

(** * Further properties of the session *)

Section Session_invariants.
Context {W : Type} `{Backend W}.
Implicit Types (i : activeImport W) (items : list Item) (item : Item).

(** ** What only grows *)

Lemma grows_refl i : grows i i.
Proof. unfold grows. by repeat split. Qed.

Lemma grows_trans i1 i2 i3 : grows i1 i2 → grows i2 i3 → grows i1 i3.
Proof.
  unfold grows.
  intros (H1 & H2 & H3 & H4 & H5 & H6 & H7 & H8 & H9)
         (G1 & G2 & G3 & G4 & G5 & G6 & G7 & G8 & G9).
  repeat split; try (etrans; done); try congruence; auto.
Qed.

Lemma persistItems_grows items i : grows i (snd (persistItems items i)).
Proof.
  rewrite persistItems_cases. unfold grows. simpl.
  assert (Hsub : importedSources i ⊆ marked i items).
  { intros k Hk. apply marked_spec. by left. }
  destruct (fst (insert_reply i items)); [|
    destruct (fst (upsert_reply i items)); [|
      destruct (fst (publish_reply i items))]]; simpl;
    repeat split; try done; try apply prefix_app_r; done.
Qed.

Lemma flushLocked_grows i : grows i (flushLocked i).
Proof.
  destruct (itemBuffer i) as [|x xs] eqn:Hbuf.
  - rewrite flushLocked_nil by done. apply grows_refl.
  - assert (Hne : itemBuffer i ≠ []) by by rewrite Hbuf.
    destruct (flushLocked_batch i Hne)
      as (_ & Hc & Hs & Hh & _ & He & Hst & _ & Hch & Hbs & Hmw & Hinf).
    destruct (persistItems_grows (itemBuffer i) i)
      as (G1 & _ & G3 & _ & G5 & _).
    unfold grows. rewrite Hc, Hs, Hh, He, Hst, Hch, Hbs, Hmw, Hinf.
    repeat split; try done. by apply prefix_app_r.
Qed.

Lemma set_itemBuffer_grows b i : grows i (set_itemBuffer b i).
Proof. unfold grows. by repeat split. Qed.

Lemma send_all_sent items c c' :
  send_all items c = Some c' → chanSent c' = chanSent c ++ items.
Proof.
  revert c. induction items as [|x xs IH]; intros c Hsend; simpl in *.
  - injection Hsend as <-. by rewrite app_nil_r.
  - unfold chan_send in Hsend. destruct (chanClosed c); [done|].
    apply IH in Hsend. rewrite Hsend. simpl. by rewrite <- app_assoc.
Qed.

Lemma step_grows o i i' : step o i = Some i' → grows i i'.
Proof.
  destruct o as [items|item| | |]; simpl; intros Hstep.
  - unfold Import in Hstep. destruct (stopped i) eqn:Hst.
    + injection Hstep as <-. apply grows_refl.
    + destruct (send_all items (itemChan i)) as [c|] eqn:Hsend; [|done].
      injection Hstep as <-. apply send_all_sent in Hsend.
      unfold grows. simpl. rewrite Hsend, Hst.
      repeat split; try done. by apply prefix_app_r.
  - injection Hstep as <-. unfold buffer. case_match.
    + eapply grows_trans; [apply set_itemBuffer_grows|].
      apply flushLocked_grows.
    + apply set_itemBuffer_grows.
  - injection Hstep as <-. apply flushLocked_grows.
  - unfold Close in Hstep. pose proof (flushLocked_grows i) as Hg.
    destruct (stopped (flushLocked i)); simpl in Hstep.
    + by injection Hstep as <-.
    + destruct (chan_close (itemChan (flushLocked i))) as [c|] eqn:Hc;
        [|done].
      injection Hstep as <-. eapply grows_trans; [exact Hg|].
      unfold chan_close in Hc.
      destruct (chanClosed (itemChan (flushLocked i))); [done|].
      injection Hc as <-. unfold grows. simpl. by repeat split.
  - injection Hstep as <-. apply grows_refl.
Qed.

Lemma steps_grows os i i' : steps os i = Some i' → grows i i'.
Proof.
  revert i. induction os as [|o os IH]; simpl; intros i Hsteps.
  - injection Hsteps as <-. apply grows_refl.
  - destruct (step o i) as [i1|] eqn:Hstep; [|done].
    eapply grows_trans; [by eapply step_grows|by apply IH].
Qed.

(** Whatever happens to a session, its committed hashes, its error list, its
    call log and the items sent on its channel are extended at the end and
    never rewritten, its durable keys are never removed, a stopped session
    stays stopped, and the configuration is not touched. *)
Theorem steps_grow os i i' : steps os i = Some i' → grows i i'.
Proof.
  revert i. induction os as [|o os IH]; simpl; intros i Hsteps.
  - injection Hsteps as <-. apply grows_refl.
  - destruct (step o i) as [i1|] eqn:Hstep; [|done].
    apply step_grows in Hstep. apply IH in Hsteps.
    by eapply grows_trans.
Qed.

(** Once a batch has failed, [Err] never returns nil again. *)
Theorem Err_sticky os i i' :
  steps os i = Some i' → Err_ i ≠ None → Err_ i' ≠ None.
Proof.
  intros Hsteps. apply steps_grows in Hsteps as (_ & [k Hk] & _).
  unfold Err_, OrNil. rewrite Hk. by destruct (errors i).
Qed.

(** ** No panic *)


(** ** The size of the buffer *)

Lemma flushLocked_buffer_ok i : buffer_ok (flushLocked i).
Proof. left. apply flushLocked_empty. Qed.

Lemma step_buffer_ok o i i' : step o i = Some i' → buffer_ok i → buffer_ok i'.
Proof.
  destruct o as [items|item| | |]; simpl; intros Hstep Hok.
  - unfold Import in Hstep. destruct (stopped i).
    + by injection Hstep as <-.
    + destruct (send_all items (itemChan i)); [|done].
      by injection Hstep as <-.
  - injection Hstep as <-. unfold buffer. case_match eqn:Hcmp.
    + apply flushLocked_buffer_ok.
    + right. apply Z.leb_gt in Hcmp. done.
  - injection Hstep as <-. apply flushLocked_buffer_ok.
  - unfold Close in Hstep. pose proof (flushLocked_buffer_ok i) as Hb.
    destruct (stopped (flushLocked i)); simpl in Hstep.
    + by injection Hstep as <-.
    + destruct (chan_close (itemChan (flushLocked i))); [|done].
      by injection Hstep as <-.
  - by injection Hstep as <-.
Qed.

(** Between the operations of a session the buffer never holds as many
    records as the threshold [int(bufferSize)]: it is empty or shorter.  With
    a threshold of 0 or less every record is flushed as it arrives. *)
Theorem buffer_stays_below_threshold size wait (w : W) inf os i :
  steps os (New size wait w inf) = Some i →
  (itemBuffer i = []
   ∨ (Z.of_nat (length (itemBuffer i)) < int_of_uint size)%Z)
  ∧ ((int_of_uint size ≤ 1)%Z → itemBuffer i = []).
Proof.
  intros Hsteps.
  assert (Hok : buffer_ok i ∧ bufferSize i = size).
  { split.
    - assert (Hgen : ∀ os j j', steps os j = Some j' →
                                buffer_ok j → buffer_ok j').
      { clear. intros os. induction os as [|o os IH]; simpl; intros j j' Hs Hj.
        - by injection Hs as <-.
        - destruct (step o j) as [j1|] eqn:Hstep; [|done].
          eapply IH; [done|]. by eapply step_buffer_ok. }
      eapply Hgen; [exact Hsteps|]. by left.
    - by apply steps_grows in Hsteps as (_ & _ & _ & _ & _ & _ & ? & _). }
  destruct Hok as [Hok Hsize]. unfold buffer_ok in Hok. rewrite Hsize in Hok.
  split; [done|]. intros Hle. destruct Hok as [|Hlt]; [done|].
  destruct (itemBuffer i); [done|]. simpl in Hlt. lia.
Qed.

(** ** The committed hashes and the log *)

Lemma published_app cs1 cs2 :
  published (cs1 ++ cs2) = published cs1 ++ published cs2.
Proof. unfold published. by rewrite flat_map_app. Qed.

Lemma published_insert_calls i items : published (insert_calls i items) = [].
Proof.
  unfold insert_calls. by destruct (new_sources i items).
Qed.

(** The hashes that [persistItems] commits and the calls it logs. *)
Lemma persistItems_hashes items i :
  importedHashes (snd (persistItems items i))
  = importedHashes i
    ++ match fst (persistItems items i) with
       | None => map InfoHash items
       | Some _ => []
       end
  ∧ published (calls (snd (persistItems items i)))
    = published (calls i)
      ++ match fst (persistItems items i) with
         | None => map InfoHash items
         | Some _ => []
         end.
Proof.
  rewrite persistItems_cases. simpl.
  rewrite <- batch_hashes_spec with (i := i).
  destruct (fst (insert_reply i items)); [|
    destruct (fst (upsert_reply i items)); [|
      destruct (fst (publish_reply i items))]]; simpl;
    rewrite ?published_app, ?published_insert_calls, ?app_nil_r; simpl;
    by rewrite ?app_nil_r.
Qed.

Lemma flushLocked_published i :
  importedHashes i = published (calls i) →
  importedHashes (flushLocked i) = published (calls (flushLocked i)).
Proof.
  intros Heq. destruct (itemBuffer i) as [|x xs] eqn:Hbuf.
  - by rewrite flushLocked_nil.
  - assert (Hne : itemBuffer i ≠ []) by by rewrite Hbuf.
    destruct (flushLocked_batch i Hne) as (_ & -> & _ & -> & _).
    destruct (persistItems_hashes (itemBuffer i) i) as [-> ->].
    by rewrite Heq.
Qed.

Lemma step_published o i i' :
  step o i = Some i' →
  importedHashes i = published (calls i) →
  importedHashes i' = published (calls i').
Proof.
  destruct o as [items|item| | |]; simpl; intros Hstep Heq.
  - unfold Import in Hstep. destruct (stopped i).
    + by injection Hstep as <-.
    + destruct (send_all items (itemChan i)); [|done].
      by injection Hstep as <-.
  - injection Hstep as <-. unfold buffer. case_match.
    + by apply flushLocked_published.
    + done.
  - injection Hstep as <-. by apply flushLocked_published.
  - unfold Close in Hstep. apply flushLocked_published in Heq.
    destruct (stopped (flushLocked i)); simpl in Hstep.
    + by injection Hstep as <-.
    + destruct (chan_close (itemChan (flushLocked i))); [|done].
      by injection Hstep as <-.
  - by injection Hstep as <-.
Qed.

(** The committed hashes of a session are exactly the hashes of the
    publications that succeeded, batch after batch in the order of the
    flushes: no hash is committed that was not published, and none that was
    published is missing. *)
Theorem ImportedHashes_are_published size wait (w : W) inf os i :
  steps os (New size wait w inf) = Some i →
  ImportedHashes i = published (calls i).
Proof.
  unfold ImportedHashes.
  assert (Hgen : ∀ os (j j' : activeImport W),
             steps os j = Some j' →
             importedHashes j = published (calls j) →
             importedHashes j' = published (calls j')).
  { clear. intros os. induction os as [|o os IH]; simpl; intros j j' Hs Hj.
    - by injection Hs as <-.
    - destruct (step o j) as [j1|] eqn:Hstep; [|done].
      eapply IH; [done|]. by eapply step_published. }
  intros Hsteps. by eapply Hgen.
Qed.

(** ** Every record is accounted for *)

Lemma flushLocked_accounted i : accounted (flushLocked i) ≡ₚ accounted i.
Proof.
  destruct (itemBuffer i) as [|x xs] eqn:Hbuf.
  - by rewrite flushLocked_nil.
  - assert (Hne : itemBuffer i ≠ []) by by rewrite Hbuf.
    destruct (flushLocked_batch i Hne)
      as (_ & _ & _ & Hh & Hb & He & _).
    destruct (persistItems_hashes (itemBuffer i) i) as [Hp _].
    unfold accounted. rewrite Hh, Hb, He, Hp. simpl. rewrite app_nil_r.
    destruct (fst (persistItems (itemBuffer i) i)) as [e|].
    + rewrite flat_map_app. simpl. by rewrite !app_nil_r.
    + rewrite !app_nil_r, <- app_assoc.
      apply Permutation_app_head, Permutation_app_comm.
Qed.

Lemma step_accounted o i i' :
  step o i = Some i' →
  accounted i' ≡ₚ accounted i ++ map InfoHash (buffered_by [o]).
Proof.
  destruct o as [items|item| | |]; simpl; intros Hstep;
    rewrite ?app_nil_r.
  - unfold Import in Hstep. destruct (stopped i).
    + by injection Hstep as <-.
    + destruct (send_all items (itemChan i)); [|done].
      by injection Hstep as <-.
  - injection Hstep as <-.
    assert (Happ : accounted (set_itemBuffer (itemBuffer i ++ [item]) i)
                   = accounted i ++ [InfoHash item]).
    { unfold accounted. simpl. by rewrite map_app, !app_assoc. }
    unfold buffer. case_match.
    + by rewrite flushLocked_accounted, Happ.
    + by rewrite Happ.
  - injection Hstep as <-. apply flushLocked_accounted.
  - unfold Close in Hstep. pose proof (flushLocked_accounted i) as Hacc.
    destruct (stopped (flushLocked i)); simpl in Hstep.
    + by injection Hstep as <-.
    + destruct (chan_close (itemChan (flushLocked i))); [|done].
      by injection Hstep as <-.
  - by injection Hstep as <-.
Qed.

(** No record is lost and none is counted twice.  The hashes of the records
    that the [buffer] goroutines have appended to a session are, up to order,
    the hashes the session holds: each is committed, or reported in the batch
    of one entry of the error list, or still in the buffer. *)
Theorem records_accounted_for os i i' :
  steps os i = Some i' →
  accounted i' ≡ₚ accounted i ++ map InfoHash (buffered_by os).
Proof.
  revert i. induction os as [|o os IH]; simpl; intros i Hsteps.
  - injection Hsteps as <-. by rewrite app_nil_r.
  - destruct (step o i) as [i1|] eqn:Hstep; [|done].
    rewrite (IH _ Hsteps), (step_accounted _ _ _ Hstep).
    unfold buffered_by. simpl. rewrite app_nil_r, map_app.
    by rewrite <- app_assoc.
Qed.

(** ** The order of the calls *)

Lemma torrents_hashes inf items :
  map t_InfoHash (map (createTorrentModel inf) items) = map InfoHash items.
Proof.
  induction items as [|x xs IH]; simpl; [done|]. rewrite IH. f_equal.
  unfold createTorrentModel. by destruct (Valid (ContentType x)).
Qed.

(** The calls that one run of [persistItems] adds to the log. *)
Lemma persistItems_segment items i :
  ∃ new, calls (snd (persistItems items i)) = calls i ++ new ∧ segment new.
Proof.
  rewrite persistItems_cases. simpl.
  rewrite batch_hashes_spec, <- (torrents_hashes (info i)),
    <- batch_torrents_spec.
  unfold insert_calls, insert_reply.
  destruct (new_sources i items) as [|s srcs]; simpl.
  - destruct (fst (upsert_reply i items)) eqn:H2; simpl.
    + eexists. split; [done|]. constructor.
    + destruct (fst (publish_reply i items)); simpl;
        (eexists; split; [done|]; constructor).
  - destruct (fst (CreateSources (s :: srcs) (world i))) eqn:H1; simpl.
    + eexists. split; [done|]. constructor.
    + destruct (fst (upsert_reply i items)) eqn:H2; simpl.
      * eexists. split; [done|]. constructor.
      * destruct (fst (publish_reply i items)); simpl;
          (eexists; split; [done|]; constructor).
Qed.

Lemma log_ordered_app cs new :
  log_ordered cs → segment new → log_ordered (cs ++ new).
Proof.
  intros (P1 & P2 & P3) Hseg. repeat split.
  - intros l1 hs r l2 Heq.
    apply split_app in Heq as [(m & -> & ->)|(m & -> & Hm)].
    + exact (P1 _ _ _ _ eq_refl).
    + inversion Hseg; subst;
        repeat (destruct m as [|? m]; simplify_eq/=).
      * exists cs. eauto.
      * exists (cs ++ [CallCreateSources srcs None]), ts.
        by rewrite <- app_assoc.
  - intros l1 ts l2 Heq.
    apply split_app in Heq as [(m & -> & ->)|(m & -> & Hm)].
    + destruct (P2 _ _ _ eq_refl) as (r & l3 & ->). simpl. eauto.
    + inversion Hseg; subst;
        repeat (destruct m as [|? m]; simplify_eq/=); eauto.
  - intros l1 ts e l2 Heq.
    apply split_app in Heq as [(m & -> & ->)|(m & -> & Hm)].
    + specialize (P3 _ _ _ _ eq_refl). destruct m as [|c m]; simpl.
      * by inversion Hseg.
      * done.
    + inversion Hseg; subst;
        repeat (destruct m as [|? m]; simplify_eq/=); done.
Qed.

Lemma flushLocked_log_ordered i :
  log_ordered (calls i) → log_ordered (calls (flushLocked i)).
Proof.
  intros Hord. destruct (itemBuffer i) as [|x xs] eqn:Hbuf.
  - by rewrite flushLocked_nil.
  - assert (Hne : itemBuffer i ≠ []) by by rewrite Hbuf.
    destruct (flushLocked_batch i Hne) as (_ & -> & _).
    destruct (persistItems_segment (itemBuffer i) i) as (new & -> & Hseg).
    by apply log_ordered_app.
Qed.

Lemma step_log_ordered o i i' :
  step o i = Some i' → log_ordered (calls i) → log_ordered (calls i').
Proof.
  destruct o as [items|item| | |]; simpl; intros Hstep Hord.
  - unfold Import in Hstep. destruct (stopped i).
    + by injection Hstep as <-.
    + destruct (send_all items (itemChan i)); [|done].
      by injection Hstep as <-.
  - injection Hstep as <-. unfold buffer. case_match.
    + by apply flushLocked_log_ordered.
    + done.
  - injection Hstep as <-. by apply flushLocked_log_ordered.
  - unfold Close in Hstep. apply flushLocked_log_ordered in Hord.
    destruct (stopped (flushLocked i)); simpl in Hstep.
    + by injection Hstep as <-.
    + destruct (chan_close (itemChan (flushLocked i))); [|done].
      by injection Hstep as <-.
  - by injection Hstep as <-.
Qed.

(** In the log of every session each publication comes right after the
    upsert of the same batch, which succeeded, and carries the info hashes of
    the torrents of that upsert; each upsert that succeeded is followed at
    once by that publication; and no publication follows an upsert that
    failed. *)
Theorem publications_follow_upserts size wait (w : W) inf os i :
  steps os (New size wait w inf) = Some i → log_ordered (calls i).
Proof.
  assert (Hgen : ∀ os (j j' : activeImport W),
             steps os j = Some j' →
             log_ordered (calls j) → log_ordered (calls j')).
  { clear. intros os. induction os as [|o os IH]; simpl; intros j j' Hs Hj.
    - by injection Hs as <-.
    - destruct (step o j) as [j1|] eqn:Hstep; [|done].
      eapply IH; [done|]. by eapply step_log_ordered. }
  intros Hsteps. eapply Hgen; [exact Hsteps|]. simpl.
  repeat split; intros; by destruct l1.
Qed.

(** ** [Import] and [Close], beyond the first call *)

Lemma send_all_open_eq items c :
  chanClosed c = false →
  send_all items c
  = Some {| chanClosed := false; chanSent := chanSent c ++ items |}.
Proof.
  revert c. induction items as [|x xs IH]; intros c Hc; simpl.
  - rewrite app_nil_r. destruct c. simpl in Hc. by subst.
  - unfold chan_send. rewrite Hc. rewrite IH by done. simpl.
    by rewrite <- app_assoc.
Qed.

Lemma Import_open items i :
  stopped i = false → chanClosed (itemChan i) = false →
  Import items i
  = Some (None,
          set_itemChan
            {| chanClosed := false;
               chanSent := chanSent (itemChan i) ++ items |} i).
Proof.
  intros Hst Hch. unfold Import. by rewrite Hst, send_all_open_eq.
Qed.

(** [Import] on a session that is not stopped sends its records on the
    channel in the order of the call and returns nil; it buffers nothing
    itself, calls nothing, and writes no other field of the session. *)
Theorem Import_sends items i :
  stopped i = false → chanClosed (itemChan i) = false →
  Import items i
  = Some (None,
          set_itemChan
            {| chanClosed := false;
               chanSent := chanSent (itemChan i) ++ items |} i).
Proof.
  intros Hst Hch. unfold Import. by rewrite Hst, send_all_open_eq.
Qed.

(** [Close] on a session that is already stopped is exactly a flush: what a
    late [buffer] goroutine has left in the buffer is handed to
    [persistItems], the error list after that flush is returned, and the
    flags and the channel are not touched again. *)
Theorem Close_of_stopped i :
  stopped i = true →
  Close i = Some (OrNil (errors (flushLocked i)), flushLocked i)
  ∧ itemBuffer (flushLocked i) = []
  ∧ itemChan (flushLocked i) = itemChan i.
Proof.
  intros Hst. destruct (flushLocked_frame i) as (Hs & _ & Hc & _).
  unfold Close. rewrite Hs, Hst. simpl.
  split; [done|]. split; [apply flushLocked_empty|done].
Qed.

(** ** The scheduler loop *)

Lemma flushLocked_twice i : flushLocked (flushLocked i) = flushLocked i.
Proof. apply flushLocked_nil, flushLocked_empty. Qed.

Lemma flushLocked_maxWaitTime i : maxWaitTime (flushLocked i) = maxWaitTime i.
Proof. by destruct (flushLocked_grows i) as (_ & _ & _ & _ & _ & _ & _ & ? & _). Qed.

(** A loop to which nothing happens takes the timer branch in every pass: the
    first pass flushes the buffer, one wait time after the loop started
    waiting, and the later passes find the buffer empty and change nothing
    but the clock. *)
Theorem idle_loop_flushes_once n c i :
  ctxDone i = false →
  run (S n) [] (MkSched i c true)
  = Some ([], MkSched (flush i) (c + Z.of_nat (S n) * maxWaitTime i) true).
Proof.
  intros Hctx. revert c. induction n as [|n IH]; intros c.
  - cbn [run looping]. rewrite idle_pass_flushes by done. simpl.
    do 3 f_equal. lia.
  - change (run (S (S n)) [] (MkSched i c true))
      with (match select [] (MkSched i c true) with
            | Some (evs', s') => run (S n) evs' s'
            | None => None
            end).
    rewrite idle_pass_flushes by done.
    destruct (flushLocked_frame i) as (_ & Hc & _).
    assert (Hrest : ∀ m c',
              run (S m) [] (MkSched (flush i) c' true)
              = Some ([], MkSched (flush i)
                            (c' + Z.of_nat (S m) * maxWaitTime i) true)).
    { clear IH. unfold flush. induction m as [|m IHm]; intros c'.
      - cbn [run looping]. rewrite idle_pass_flushes by by rewrite Hc.
        unfold flush. rewrite flushLocked_twice, flushLocked_maxWaitTime.
        simpl. do 3 f_equal. lia.
      - change (run (S (S m)) [] (MkSched (flushLocked i) c' true))
          with (match select [] (MkSched (flushLocked i) c' true) with
                | Some (evs', s') => run (S m) evs' s'
                | None => None
                end).
        rewrite idle_pass_flushes by by rewrite Hc.
        unfold flush. rewrite flushLocked_twice, flushLocked_maxWaitTime.
        rewrite IHm. do 3 f_equal. lia. }
    rewrite Hrest. do 3 f_equal. lia.
Qed.

(** A record that arrives alone, the buffer staying below the threshold, is
    flushed with the records already buffered exactly one wait time after its
    arrival, not after the arrival of the first buffered record nor after the
    last flush. *)
Theorem flush_follows_last_arrival item t c i :
  stopped i = false → ctxDone i = false →
  chanClosed (itemChan i) = false →
  (c ≤ t < c + maxWaitTime i)%Z →
  (Z.of_nat (length (itemBuffer i ++ [item])) < threshold i)%Z →
  run 2 [Handed t item] (MkSched i c true)
  = Some ([],
          MkSched
            (flushLocked
               (set_itemBuffer (itemBuffer i ++ [item])
                  (set_itemChan
                     {| chanClosed := false;
                        chanSent := chanSent (itemChan i) ++ [item] |} i)))
            (t + maxWaitTime i) true).
Proof.
  intros Hst Hctx Hch Ht Hlen.
  cbn [run looping]. unfold select at 1. cbn [sess clock].
  rewrite Hctx.
  assert (Hlt : (t <? c + maxWaitTime i)%Z = true) by (apply Z.ltb_lt; lia).
  rewrite Hlt, Import_open by done.
  set (i1 := set_itemChan _ i).
  rewrite (buffer_below item i1) by done.
  cbn [looping]. rewrite idle_pass_flushes by done.
  unfold flush. simpl. do 3 f_equal. lia.
Qed.

(** When the context is cancelled before the timer fires, the pass closes
    the session, which flushes the buffer, and the loop returns: no later
    pass does anything. *)
Theorem cancellation_closes_and_returns t rest c i :
  chan_ok i → ctxDone i = false → (t < c + maxWaitTime i)%Z →
  ∃ i1, Close i = Some (OrNil (errors i1), i1)
    ∧ select (Cancelled t :: rest) (MkSched i c true)
      = Some (rest, MkSched i1 (Z.max c t) false)
    ∧ stopped i1 = true ∧ itemBuffer i1 = []
    ∧ ∀ n evs, run n evs (MkSched i1 (Z.max c t) false)
               = Some (evs, MkSched i1 (Z.max c t) false).
Proof.
  intros Hok Hctx Ht.
  destruct (Close_returns i Hok) as (i1 & HC & Hst & _ & Hb).
  exists i1. split; [done|]. split.
  - unfold select. simpl. rewrite Hctx.
    assert (Hlt : (t <? c + maxWaitTime i)%Z = true)
      by by apply Z.ltb_lt.
    by rewrite Hlt, HC.
  - split; [done|]. split; [done|]. intros n evs. by destruct n.
Qed.

End Session_invariants.

(** * Properties of the TMDB movie client *)

(** ** Numbers and their decimal digits *)

Lemma string_of_uint_head (d : Decimal.uint) :
  d ≠ Decimal.Nil →
  ∃ c s, NilZero.string_of_uint d = String c s
         ∧ Ascii.eqb c "-"%char = false ∧ Ascii.eqb c "+"%char = false.
Proof. intros Hd. destruct d; [done|..]; simpl; eauto. Qed.

Lemma Atoi_digits (d : Decimal.uint) :
  d ≠ Decimal.Nil → strconv.in_int (Z.of_uint d) = true →
  strconv.Atoi (NilZero.string_of_uint d) = inr (Z.of_uint d).
Proof.
  intros Hd Hr. pose proof (NilZero.usu d Hd) as Hu.
  destruct (string_of_uint_head d Hd) as (c & s & Heq & Hm & Hp).
  rewrite Heq in *. unfold strconv.Atoi. by rewrite Hm, Hp, Hu, Hr.
Qed.

(** [Atoi] reads back what [Itoa] writes, for every number of [int]. *)
Lemma Atoi_Itoa (n : Z) :
  strconv.in_int n = true → strconv.Atoi (strconv.Itoa n) = inr n.
Proof.
  intros Hr. unfold strconv.Itoa. destruct n as [|p|p].
  - reflexivity.
  - change (Z.to_int (Z.pos p)) with (Decimal.Pos (Pos.to_uint p)).
    cbn [NilZero.string_of_int].
    assert (Hof : Z.of_uint (Pos.to_uint p) = Z.pos p)
      by exact (DecimalZ.of_to (Z.pos p)).
    rewrite <- Hof. apply Atoi_digits.
    + apply Unsigned.to_uint_nonnil.
    + by rewrite Hof.
  - change (Z.to_int (Z.neg p)) with (Decimal.Neg (Pos.to_uint p)).
    cbn [NilZero.string_of_int].
    assert (Hof : (- Z.of_uint (Pos.to_uint p))%Z = Z.neg p)
      by exact (DecimalZ.of_to (Z.neg p)).
    unfold strconv.Atoi. cbn [Ascii.eqb Bool.eqb].
    rewrite NilZero.usu by apply Unsigned.to_uint_nonnil.
    by rewrite Hof, Hr.
Qed.

(** Distinct numbers have distinct digits. *)
Lemma Itoa_inj (n m : Z) : strconv.Itoa n = strconv.Itoa m → n = m.
Proof.
  unfold strconv.Itoa. intros Heq. apply DecimalZ.to_int_inj.
  assert (Hnn : ∀ z, Z.to_int z ≠ Decimal.Pos Decimal.Nil
                     ∧ Z.to_int z ≠ Decimal.Neg Decimal.Nil).
  { intros [|p|p]; split; try done;
      intros Hz; injection Hz as Hz; by apply Unsigned.to_uint_nonnil in Hz. }
  destruct (Hnn n) as [Hn1 Hn2]. destruct (Hnn m) as [Hm1 Hm2].
  pose proof (NilZero.isi _ Hn1 Hn2) as Hin.
  pose proof (NilZero.isi _ Hm1 Hm2) as Him.
  rewrite Heq in Hin. rewrite Hin in Him. by injection Him.
Qed.

Section Tmdb_properties.
Context `{tmdb.Deps} {W : Type} `{!tmdb.Client W}.
Implicit Types (st : tmdb.St W) (p : tmdb.SearchMovieParams)
  (details : tmdb.MovieDetails).

(** ** [getExternalSource] *)

Lemma getExternalSource_other (source id : string) :
  source ≠ "imdb" → source ≠ "tvdb" →
  tmdb.getExternalSource source id
  = (EmptyString, EmptyString, Some tmdb.ErrUnknownSource).
Proof.
  unfold tmdb.getExternalSource, tmdb.SourceImdb, tmdb.SourceTvdb.
  intros H1 H2. apply String.eqb_neq in H1, H2. by rewrite H1, H2.
Qed.

(** [getExternalSource] knows the sources [imdb] and [tvdb] and no other:
    for them it returns the source with [_id] appended and the id as it is;
    for every other source it returns [ErrUnknownSource] and two empty
    strings. *)
Theorem getExternalSource_spec (source id : string) :
  (source = "imdb" ∨ source = "tvdb" →
     tmdb.getExternalSource source id = (source +:+ "_id", id, None))
  ∧ (source ≠ "imdb" → source ≠ "tvdb" →
     tmdb.getExternalSource source id
     = (EmptyString, EmptyString, Some tmdb.ErrUnknownSource)).
Proof.
  unfold tmdb.getExternalSource, tmdb.SourceImdb, tmdb.SourceTvdb. split.
  - by intros [-> | ->].
  - intros H1 H2. apply String.eqb_neq in H1, H2. by rewrite H1, H2.
Qed.

(** ** [MovieDetailsToMovieModel] *)

(** The conversion fails only on a release date that is not empty and does
    not parse, with the error of the parser; an empty release date is not
    parsed and gives the zero date and the year 0; and the release year of
    the content is always the year of its release date. *)
Theorem MovieDetailsToMovieModel_release_date details :
  (tmdb.d_ReleaseDate details = EmptyString →
     ∃ c, tmdb.MovieDetailsToMovieModel details = inr c
          ∧ tmdb.c_ReleaseDate c = tmdb.zero_Date
          ∧ tmdb.c_ReleaseYear c = 0%Z)
  ∧ (∀ e, tmdb.MovieDetailsToMovieModel details = inl e
          ↔ tmdb.d_ReleaseDate details ≠ EmptyString
            ∧ tmdb.NewDateFromIsoString (tmdb.d_ReleaseDate details) = inl e)
  ∧ (∀ c, tmdb.MovieDetailsToMovieModel details = inr c →
          tmdb.c_ReleaseYear c = date_year (tmdb.c_ReleaseDate c)).
Proof.
  unfold tmdb.MovieDetailsToMovieModel.
  destruct (String.eqb (tmdb.d_ReleaseDate details) EmptyString) eqn:Hd.
  - apply String.eqb_eq in Hd. split; [|split].
    + intros _. eexists. split; [done|]. done.
    + intros e. split; [done|]. by intros [Hne _].
    + intros c Hc. by injection Hc as <-.
  - apply String.eqb_neq in Hd.
    destruct (tmdb.NewDateFromIsoString (tmdb.d_ReleaseDate details))
      as [e'|date] eqn:Hp; (split; [done|split]).
    + intros e. split.
      * intros He. by injection He as <-.
      * intros [_ He]. by injection He as <-.
    + done.
    + intros e. split; [done|]. by intros [_ ?].
    + intros c Hc. by injection Hc as <-.
Qed.


Lemma MovieDetailsToMovieModel_inr details c :
  tmdb.MovieDetailsToMovieModel details = inr c →
  tmdb.c_ID c = strconv.Itoa (tmdb.d_ID details)
  ∧ tmdb.c_Attributes c = tmdb.attributes_of details
  ∧ tmdb.c_Runtime c
    = MkNull (tmdb.d_Runtime details mod 2 ^ 16)%Z
             (0 <? tmdb.d_Runtime details)%Z.
Proof.
  unfold tmdb.MovieDetailsToMovieModel.
  destruct (if String.eqb _ _ then _ else _); [done|].
  intros Hc. by injection Hc as <-.
Qed.

(** No attribute with an empty value is ever produced; there are at most
    three attributes, no two for the same source and key; and the content
    has the attribute [imdb]/[id] exactly when the details have an IMDb id,
    which is then its value. *)
Theorem MovieDetailsToMovieModel_attributes details c :
  tmdb.MovieDetailsToMovieModel details = inr c →
  Forall (λ a, tmdb.ca_Value a ≠ EmptyString) (tmdb.c_Attributes c)
  ∧ length (tmdb.c_Attributes c) ≤ 3
  ∧ NoDup (map (λ a, (tmdb.ca_Source a, tmdb.ca_Key a))
               (tmdb.c_Attributes c))
  ∧ (∀ v, {| tmdb.ca_Source := "imdb"; tmdb.ca_Key := "id";
             tmdb.ca_Value := v |} ∈ tmdb.c_Attributes c
          ↔ tmdb.d_IMDbID details ≠ EmptyString
            ∧ v = tmdb.d_IMDbID details).
Proof.
  intros Hc. apply MovieDetailsToMovieModel_inr in Hc as (_ & -> & _).
  unfold tmdb.attributes_of.
  destruct (String.eqb (tmdb.d_IMDbID details) EmptyString) eqn:Himdb;
    destruct (String.eqb (tmdb.d_PosterPath details) EmptyString) eqn:Hpost;
    destruct (String.eqb (tmdb.d_BackdropPath details) EmptyString) eqn:Hback;
    simpl.
  all: first [apply String.eqb_eq in Himdb|apply String.eqb_neq in Himdb].
  all: first [apply String.eqb_eq in Hpost|apply String.eqb_neq in Hpost].
  all: first [apply String.eqb_eq in Hback|apply String.eqb_neq in Hback].
  all: split; [repeat (constructor; simpl; try done)|].
  all: split; [lia|].
  all: split; [apply (bool_decide_unpack _); by vm_compute|].
  all: intros v; rewrite ?elem_of_cons, elem_of_nil.
  all: split; [intros Hin|intros [Hne ->]].
  all: try tauto.
  all: try (destruct_or!; simplify_eq; done).
  all: by left.
Qed.


(** Movies with distinct TMDB ids get contents with distinct ids. *)
Theorem MovieDetailsToMovieModel_ID_inj details1 details2 c1 c2 :
  tmdb.MovieDetailsToMovieModel details1 = inr c1 →
  tmdb.MovieDetailsToMovieModel details2 = inr c2 →
  tmdb.c_ID c1 = tmdb.c_ID c2 →
  tmdb.d_ID details1 = tmdb.d_ID details2.
Proof.
  intros H1 H2 Heq.
  apply MovieDetailsToMovieModel_inr in H1 as (E1 & _).
  apply MovieDetailsToMovieModel_inr in H2 as (E2 & _).
  rewrite E1, E2 in Heq. by apply Itoa_inj.
Qed.

(** ** The calls of the client *)

Lemma issue_log {A : Type}
  (op : W → (tmdb.error + A) * W) (c : tmdb.ApiCall) st :
  tmdb.st_log (snd (tmdb.issue op c st)) = tmdb.st_log st ++ [c]
  ∧ fst (tmdb.issue op c st) = fst (op (tmdb.st_world st))
  ∧ tmdb.st_world (snd (tmdb.issue op c st)) = snd (op (tmdb.st_world st)).
Proof. unfold tmdb.issue. by destruct (op (tmdb.st_world st)). Qed.

(** [getMovieByTmbdId] asks the TMDB API once, for the details of the id.
    An error of the API whose message begins with [code: 34] is answered as
    [ErrNoMatch]; every other error of the API is returned as it is. *)
Theorem getMovieByTmbdId_errors (id : Z) st e :
  fst (tmdb.c_GetMovieDetails id ∅ (tmdb.st_world st)) = inl e →
  tmdb.st_log (snd (tmdb.getMovieByTmbdId id st))
  = tmdb.st_log st ++ [tmdb.CallGetMovieDetails id ∅]
  ∧ (String.prefix "code: 34" (tmdb.Error e) = true →
       fst (tmdb.getMovieByTmbdId id st) = inl tmdb.ErrNoMatch)
  ∧ (String.prefix "code: 34" (tmdb.Error e) = false →
       fst (tmdb.getMovieByTmbdId id st) = inl e).
Proof.
  intros He. unfold tmdb.getMovieByTmbdId, tmdb.issue.
  destruct (tmdb.c_GetMovieDetails id ∅ (tmdb.st_world st)) as [r w].
  simpl in He. subst r. simpl.
  split; [done|]. split; by intros ->.
Qed.

Lemma getMovieByTmbdId_log (id : Z) st :
  tmdb.st_log (snd (tmdb.getMovieByTmbdId id st))
  = tmdb.st_log st ++ [tmdb.CallGetMovieDetails id ∅].
Proof.
  unfold tmdb.getMovieByTmbdId, tmdb.issue.
  destruct (tmdb.c_GetMovieDetails id ∅ (tmdb.st_world st)) as [[e|d] w];
    done.
Qed.

(** A content that the local search finds is returned at once: the first
    item of the reply is the result, and the TMDB API is not called.  An
    error of the local search is returned as it is, and again the TMDB API
    is not called. *)
Theorem GetMovieByExternalId_local_first (source id : string) st :
  let options := tmdb.external_options source id in
  let reply := fst (tmdb.s_Content options (tmdb.st_world st)) in
  let out := tmdb.GetMovieByExternalId source id st in
  (∀ item rest, reply = inr (item :: rest) →
     fst out = inr item
     ∧ tmdb.st_log (snd out) = tmdb.st_log st ++ [tmdb.CallContent options])
  ∧ (∀ e, reply = inl e →
       fst out = inl e
       ∧ tmdb.st_log (snd out)
         = tmdb.st_log st ++ [tmdb.CallContent options]).
Proof.
  simpl. unfold tmdb.GetMovieByExternalId.
  set (options := tmdb.external_options source id).
  destruct (issue_log (tmdb.s_Content options) (tmdb.CallContent options) st)
    as (Hlog & Hr & _).
  destruct (tmdb.issue _ _ st) as [r st1]. simpl in *. rewrite <- Hr.
  split.
  - intros item rest ->. done.
  - intros e ->. done.
Qed.

(** For a source that is neither [SourceTmdb] nor [imdb] nor [tvdb], when
    the local search finds nothing, [GetMovieByExternalId] returns
    [ErrUnknownSource] and has called nothing but the local search. *)
Theorem GetMovieByExternalId_unknown_source (source id : string) st :
  source ≠ tmdb.SourceTmdb → source ≠ "imdb" → source ≠ "tvdb" →
  fst (tmdb.s_Content (tmdb.external_options source id) (tmdb.st_world st))
  = inr [] →
  fst (tmdb.GetMovieByExternalId source id st) = inl tmdb.ErrUnknownSource
  ∧ tmdb.st_log (snd (tmdb.GetMovieByExternalId source id st))
    = tmdb.st_log st
      ++ [tmdb.CallContent (tmdb.external_options source id)].
Proof.
  intros Htmdb Himdb Htvdb Hlocal. unfold tmdb.GetMovieByExternalId.
  set (options := tmdb.external_options source id) in *.
  destruct (issue_log (tmdb.s_Content options) (tmdb.CallContent options) st)
    as (Hlog & Hr & _).
  destruct (tmdb.issue _ _ st) as [r st1]. simpl in *.
  rewrite Hlocal in Hr. subst r.
  apply String.eqb_neq in Htmdb. rewrite Htmdb.
  by rewrite (getExternalSource_other source id Himdb Htvdb).
Qed.

(** For the source [SourceTmdb], when the local search finds nothing, the
    id is read as a decimal number: the id that [strconv.Itoa] writes for a
    number of [int] leads to the details of that very number, and an id that
    is not a number is answered with the error of [strconv.Atoi], the TMDB
    API not being called. *)
Theorem GetMovieByExternalId_tmdb_id (id : string) st :
  let options := tmdb.external_options tmdb.SourceTmdb id in
  let st1 := snd (tmdb.issue (tmdb.s_Content options)
                             (tmdb.CallContent options) st) in
  fst (tmdb.s_Content options (tmdb.st_world st)) = inr [] →
  (∀ n, strconv.in_int n = true → id = strconv.Itoa n →
     tmdb.GetMovieByExternalId tmdb.SourceTmdb id st
     = tmdb.getMovieByTmbdId n st1)
  ∧ (∀ err, strconv.Atoi id = inl err →
       tmdb.GetMovieByExternalId tmdb.SourceTmdb id st
       = (inl (tmdb.NumError id err), st1)
       ∧ tmdb.st_log st1 = tmdb.st_log st ++ [tmdb.CallContent options]).
Proof.
  simpl. intros Hlocal. unfold tmdb.GetMovieByExternalId.
  set (options := tmdb.external_options tmdb.SourceTmdb id) in *.
  destruct (issue_log (tmdb.s_Content options) (tmdb.CallContent options) st)
    as (Hlog & Hr & _).
  destruct (tmdb.issue _ _ st) as [r st1]. simpl in *.
  rewrite Hlocal in Hr. subst r. rewrite String.eqb_refl.
  split.
  - intros n Hn ->. by rewrite Atoi_Itoa.
  - intros err ->. done.
Qed.

(** ** The two searches *)

(** The local search returns the first item of the reply, in its order, of
    which the title, or the original title when it is valid, passes the
    check, and [ErrNoMatch] when no item passes; an original title that is
    not valid is no candidate. *)
Theorem first_local_spec p (items : list tmdb.Content) :
  (∀ item, tmdb.first_local p items = inr item →
     ∃ l1 l2, items = l1 ++ item :: l2
       ∧ tmdb.local_match p item = true
       ∧ Forall (λ x, tmdb.local_match p x = false) l1)
  ∧ (∀ e, tmdb.first_local p items = inl e →
       e = tmdb.ErrNoMatch
       ∧ Forall (λ x, tmdb.local_match p x = false) items)
  ∧ (∀ item, Valid (tmdb.c_OriginalTitle item) = false →
       tmdb.local_candidates item = [tmdb.c_Title item]).
Proof.
  split; [|split].
  - induction items as [|x xs IH]; simpl; intros item Hres; [done|].
    destruct (tmdb.local_match p x) eqn:Hx.
    + injection Hres as <-. exists [], xs. by repeat split.
    + destruct (IH item Hres) as (l1 & l2 & -> & Hm & Hf).
      exists (x :: l1), l2. repeat split; [done|]. by constructor.
  - induction items as [|x xs IH]; simpl; intros e Hres.
    + by injection Hres as <-.
    + destruct (tmdb.local_match p x) eqn:Hx; [done|].
      destruct (IH e Hres) as [-> Hf]. split; [done|]. by constructor.
  - intros item Hv. unfold tmdb.local_candidates. by rewrite Hv.
Qed.

(** The search on TMDB looks up the first result that passes the check and
    no other: its outcome is the outcome of that lookup, an error too, and
    the results after it are not tried.  When no result passes, it returns
    [ErrNoMatch] and calls nothing. *)
Theorem first_remote_spec p (l1 l2 : list tmdb.SearchItem) item st :
  Forall (λ x, tmdb.remote_match p x = false) l1 →
  (tmdb.remote_match p item = true →
     tmdb.first_remote p (l1 ++ item :: l2) st
     = tmdb.GetMovieByExternalId tmdb.SourceTmdb
         (strconv.Itoa (tmdb.si_ID item)) st)
  ∧ tmdb.first_remote p l1 st = (inl tmdb.ErrNoMatch, st).
Proof.
  induction 1 as [|x xs Hx _ [IH1 IH2]]; simpl.
  - split; [by intros ->|done].
  - rewrite Hx. done.
Qed.

(** ** [SearchMovie] *)

(** [SearchMovie] asks the local search first.  A content found there is
    the result, and an error of the local search other than [ErrNoMatch] is
    returned as it is; in both cases nothing else is called.  Only when the
    local search reports [ErrNoMatch] does the search go on to TMDB, from
    the state the local search left. *)
Theorem SearchMovie_local_first p st :
  let local := tmdb.searchMovieLocal p st in
  tmdb.st_log (snd local)
  = tmdb.st_log st ++ [tmdb.CallContent (tmdb.local_options p)]
  ∧ (∀ c, fst local = inr c → tmdb.SearchMovie p st = (inr c, snd local))
  ∧ (∀ e, fst local = inl e → tmdb.Is_ErrNoMatch e = false →
       tmdb.SearchMovie p st = (inl e, snd local))
  ∧ (∀ e, fst local = inl e → tmdb.Is_ErrNoMatch e = true →
       tmdb.SearchMovie p st = tmdb.searchMovieTmdb p (snd local)).
Proof.
  simpl. unfold tmdb.SearchMovie.
  assert (Hlog : tmdb.st_log (snd (tmdb.searchMovieLocal p st))
                 = tmdb.st_log st
                   ++ [tmdb.CallContent (tmdb.local_options p)]).
  { unfold tmdb.searchMovieLocal.
    destruct (issue_log (tmdb.s_Content (tmdb.local_options p))
                (tmdb.CallContent (tmdb.local_options p)) st) as (Hl & _).
    destruct (tmdb.issue _ _ st) as [[e|items] st1]; done. }
  split; [done|].
  destruct (tmdb.searchMovieLocal p st) as [[e|c] st1]; simpl.
  - split; [done|]. split.
    + intros e' He' Hno. injection He' as <-. by rewrite Hno.
    + intros e' He' Hno. injection He' as <-. by rewrite Hno.
  - split; [|done]. intros c' Hc'. by injection Hc' as <-.
Qed.

(** When the local search finds no candidate, which it reports as
    [ErrNoMatch], the result of [SearchMovie] is that of the search on
    TMDB. *)
Theorem SearchMovie_falls_back p st (items : list tmdb.Content) :
  fst (tmdb.s_Content (tmdb.local_options p) (tmdb.st_world st))
  = inr items →
  Forall (λ x, tmdb.local_match p x = false) items →
  tmdb.SearchMovie p st
  = tmdb.searchMovieTmdb p (snd (tmdb.searchMovieLocal p st)).
Proof.
  intros Hreply Hnone.
  assert (Hfirst : tmdb.first_local p items = inl tmdb.ErrNoMatch).
  { clear Hreply. induction Hnone as [|x xs Hx _ IH]; simpl; [done|].
    by rewrite Hx. }
  unfold tmdb.SearchMovie, tmdb.searchMovieLocal.
  destruct (issue_log (tmdb.s_Content (tmdb.local_options p))
              (tmdb.CallContent (tmdb.local_options p)) st) as (_ & Hr & _).
  destruct (tmdb.issue _ _ st) as [r st1]. simpl in *.
  rewrite Hreply in Hr. subst r. rewrite Hfirst.
  by rewrite tmdb.Is_ErrNoMatch_refl.
Qed.

End Tmdb_properties.

(** * The further properties at concrete inputs *)

Lemma steps_grow_witness :
  ∃ i, steps ops_two (session 2 [None; None; Some "queue down"]) = Some i
       ∧ grows (session 2 [None; None; Some "queue down"]) i.
Proof.
  eexists. split; [reflexivity|].
  apply (steps_grow ops_two). reflexivity.
Defined.

Lemma Err_sticky_witness :
  ∃ i, steps [OpFlush; OpClose]
         (set_errors [ {| Items := [itemA]; Err := "down" |} ]
            (session 2 [])) = Some i
       ∧ Err_ i ≠ None.
Proof.
  destruct (steps [OpFlush; OpClose]
              (set_errors [ {| Items := [itemA]; Err := "down" |} ]
                 (session 2 []))) as [i|] eqn:Hsteps.
  - exists i. split; [reflexivity|].
    apply (Err_sticky _ _ _ Hsteps). discriminate.
  - vm_compute in Hsteps. discriminate.
Defined.

Lemma buffer_stays_below_threshold_witness :
  ∃ i, steps [OpBuffer itemA; OpBuffer itemB; OpBuffer itemA]
         (New 2 10 ([] : Script) (MkInfo "job")) = Some i
       ∧ (itemBuffer i = []
          ∨ (Z.of_nat (length (itemBuffer i)) < int_of_uint 2)%Z).
Proof.
  eexists. split; [reflexivity|].
  eapply proj1,
    (buffer_stays_below_threshold 2 10 [] (MkInfo "job")
       [OpBuffer itemA; OpBuffer itemB; OpBuffer itemA]).
  reflexivity.
Defined.

Lemma ImportedHashes_are_published_witness :
  ∃ i, steps ops_two (New 2 10 ([] : Script) (MkInfo "job")) = Some i
       ∧ ImportedHashes i = published (calls i).
Proof.
  eexists. split; [reflexivity|].
  apply (ImportedHashes_are_published 2 10 [] (MkInfo "job") ops_two).
  reflexivity.
Defined.

Lemma records_accounted_for_witness :
  ∃ i, steps (OpBuffer itemA :: ops_two)
         (session 2 [None; None; Some "queue down"]) = Some i
       ∧ accounted i
         ≡ₚ accounted (session 2 [None; None; Some "queue down"])
            ++ map InfoHash (buffered_by (OpBuffer itemA :: ops_two)).
Proof.
  eexists. split; [reflexivity|].
  apply (records_accounted_for (OpBuffer itemA :: ops_two)). reflexivity.
Defined.

Lemma publications_follow_upserts_witness :
  ∃ i, steps ops_two (New 2 10 ([] : Script) (MkInfo "job")) = Some i
       ∧ log_ordered (calls i).
Proof.
  eexists. split; [reflexivity|].
  apply (publications_follow_upserts 2 10 [] (MkInfo "job") ops_two).
  reflexivity.
Defined.

Lemma Import_sends_witness :
  Import [itemA; itemB] (session 3 [])
  = Some (None,
          set_itemChan
            {| chanClosed := false;
               chanSent := chanSent (itemChan (session 3 []))
                           ++ [itemA; itemB] |} (session 3 [])).
Proof. apply Import_sends; reflexivity. Defined.

Lemma Close_of_stopped_witness :
  stopped late_session = true
  ∧ Close late_session
    = Some (OrNil (errors (flushLocked late_session)),
            flushLocked late_session).
Proof.
  split; [reflexivity|].
  apply (Close_of_stopped late_session). reflexivity.
Defined.

Lemma idle_loop_flushes_once_witness :
  run 3 [] (MkSched (buffered [itemA] (session 3 [])) 0 true)
  = Some ([],
          MkSched (flush (buffered [itemA] (session 3 [])))
            (0 + Z.of_nat 3 * maxWaitTime (buffered [itemA] (session 3 [])))
            true).
Proof.
  apply (idle_loop_flushes_once 2 0 (buffered [itemA] (session 3 []))).
  reflexivity.
Defined.

Lemma flush_follows_last_arrival_witness :
  run 2 [Handed 4 itemA] (MkSched (session 3 []) 0 true)
  = Some ([],
          MkSched
            (flushLocked
               (set_itemBuffer (itemBuffer (session 3 []) ++ [itemA])
                  (set_itemChan
                     {| chanClosed := false;
                        chanSent := chanSent (itemChan (session 3 []))
                                    ++ [itemA] |} (session 3 []))))
            (4 + maxWaitTime (session 3 [])) true).
Proof.
  apply (flush_follows_last_arrival itemA 4 0 (session 3 []));
    try reflexivity.
  vm_compute. split; [discriminate|reflexivity].
Defined.

Lemma cancellation_closes_and_returns_witness :
  ∃ i1, Close (buffered [itemA] (session 3 []))
        = Some (OrNil (errors i1), i1)
    ∧ select [Cancelled 1] (MkSched (buffered [itemA] (session 3 [])) 0 true)
      = Some ([], MkSched i1 (Z.max 0 1) false)
    ∧ stopped i1 = true ∧ itemBuffer i1 = [].
Proof.
  destruct (cancellation_closes_and_returns 1 [] 0
              (buffered [itemA] (session 3 [])))
    as (i1 & HC & Hsel & Hst & Hb & _); try reflexivity.
  exists i1. by repeat split.
Defined.

Lemma trickle_starves_timer_witness :
  ∃ s, run 3 (trickle 9 9 3) (MkSched (session 1000 []) 0 true)
       = Some ([], s)
       ∧ calls (sess s) = [] ∧ itemBuffer (sess s) = replicate 3 itemA.
Proof.
  destruct (trickle_starves_timer 3 9 9 0 (session 1000 []))
    as (s & Hrun & _ & Hc & _ & Hb & _); try reflexivity;
    try (vm_compute; split; [discriminate|reflexivity]).
  exists s. by repeat split.
Defined.

Lemma getExternalSource_spec_witness :
  tmdb.getExternalSource "imdb" "tt1" = ("imdb" +:+ "_id", "tt1", None)
  ∧ tmdb.getExternalSource "kitsu" "5"
    = (EmptyString, EmptyString, Some tmdb.ErrUnknownSource).
Proof.
  split.
  - apply (proj1 (getExternalSource_spec "imdb" "tt1")). by left.
  - apply (proj2 (getExternalSource_spec "kitsu" "5")); discriminate.
Defined.

Lemma MovieDetailsToMovieModel_release_date_witness :
  (∃ c, tmdb.MovieDetailsToMovieModel sample_details = inr c
        ∧ tmdb.c_ReleaseDate c = tmdb.zero_Date
        ∧ tmdb.c_ReleaseYear c = 0%Z)
  ∧ tmdb.MovieDetailsToMovieModel bad_date_details = inl "invalid date".
Proof.
  split.
  - apply (proj1 (MovieDetailsToMovieModel_release_date sample_details)).
    reflexivity.
  - apply (proj1 (proj2 (MovieDetailsToMovieModel_release_date
                           bad_date_details))).
    split; [discriminate|reflexivity].
Defined.


Lemma MovieDetailsToMovieModel_attributes_witness :
  ∃ c, tmdb.MovieDetailsToMovieModel sample_details = inr c
       ∧ Forall (λ a, tmdb.ca_Value a ≠ EmptyString) (tmdb.c_Attributes c).
Proof.
  destruct (tmdb.MovieDetailsToMovieModel sample_details) as [e|c] eqn:Hc.
  - vm_compute in Hc. discriminate.
  - exists c. split; [reflexivity|].
    apply (MovieDetailsToMovieModel_attributes sample_details c Hc).
Defined.


Lemma MovieDetailsToMovieModel_ID_inj_witness :
  ∃ c, tmdb.MovieDetailsToMovieModel sample_details = inr c
       ∧ tmdb.d_ID sample_details = tmdb.d_ID sample_details.
Proof.
  destruct (tmdb.MovieDetailsToMovieModel sample_details) as [e|c] eqn:Hc.
  - vm_compute in Hc. discriminate.
  - exists c. split; [reflexivity|].
    apply (MovieDetailsToMovieModel_ID_inj sample_details sample_details
             c c Hc Hc eq_refl).
Defined.

Lemma getMovieByTmbdId_errors_witness :
  fst (tmdb.getMovieByTmbdId 5 (start_of world_not_found))
  = inl tmdb.ErrNoMatch.
Proof.
  apply (@getMovieByTmbdId_errors sample_deps Canned canned_client 5
           (start_of world_not_found) "code: 34 | not found");
    reflexivity.
Defined.

Lemma GetMovieByExternalId_local_first_witness :
  fst (tmdb.GetMovieByExternalId "imdb" "tt0133093"
         (start_of world_local_hit))
  = inr sample_content.
Proof.
  apply (proj1 (GetMovieByExternalId_local_first "imdb" "tt0133093"
                  (start_of world_local_hit)) sample_content []).
  reflexivity.
Defined.

Lemma GetMovieByExternalId_unknown_source_witness :
  fst (tmdb.GetMovieByExternalId "kitsu" "5" (start_of world_not_found))
  = inl tmdb.ErrUnknownSource.
Proof.
  apply (GetMovieByExternalId_unknown_source "kitsu" "5"
           (start_of world_not_found)); (discriminate || reflexivity).
Defined.

Lemma GetMovieByExternalId_tmdb_id_witness :
  tmdb.GetMovieByExternalId tmdb.SourceTmdb (strconv.Itoa 603)
    (start_of world_local_miss)
  = tmdb.getMovieByTmbdId 603
      (snd (tmdb.issue
              (tmdb.s_Content
                 (tmdb.external_options tmdb.SourceTmdb (strconv.Itoa 603)))
              (tmdb.CallContent
                 (tmdb.external_options tmdb.SourceTmdb (strconv.Itoa 603)))
              (start_of world_local_miss))).
Proof.
  assert (Hmiss : fst (tmdb.s_Content
                         (tmdb.external_options tmdb.SourceTmdb
                            (strconv.Itoa 603))
                         (tmdb.st_world (start_of world_local_miss)))
                  = inr []) by reflexivity.
  apply (proj1 (GetMovieByExternalId_tmdb_id (strconv.Itoa 603)
                  (start_of world_local_miss) Hmiss) 603%Z);
    reflexivity.
Defined.

Lemma first_local_spec_witness :
  tmdb.first_local sample_params [sample_content] = inr sample_content
  ∧ ∃ l1 l2, [sample_content] = l1 ++ sample_content :: l2
      ∧ tmdb.local_match sample_params sample_content = true
      ∧ Forall (λ x, tmdb.local_match sample_params x = false) l1.
Proof.
  split; [reflexivity|].
  apply (proj1 (first_local_spec sample_params [sample_content])).
  reflexivity.
Defined.

Lemma first_remote_spec_witness :
  tmdb.first_remote sample_params
    ([] ++ [tmdb.MkSearchItem 603 "The Matrix" "The Matrix"])
    (start_of world_local_miss)
  = tmdb.GetMovieByExternalId tmdb.SourceTmdb (strconv.Itoa 603)
      (start_of world_local_miss).
Proof.
  apply (proj1 (first_remote_spec sample_params [] []
                  (tmdb.MkSearchItem 603 "The Matrix" "The Matrix")
                  (start_of world_local_miss) (Forall_nil_2 _))).
  reflexivity.
Defined.

Lemma SearchMovie_local_first_witness :
  tmdb.SearchMovie sample_params (start_of world_local_hit)
  = (inr sample_content,
     snd (tmdb.searchMovieLocal sample_params (start_of world_local_hit))).
Proof.
  apply (proj1 (proj2 (SearchMovie_local_first sample_params
                         (start_of world_local_hit)))).
  reflexivity.
Defined.

Lemma SearchMovie_falls_back_witness :
  tmdb.SearchMovie sample_params (start_of world_local_miss)
  = tmdb.searchMovieTmdb sample_params
      (snd (tmdb.searchMovieLocal sample_params
              (start_of world_local_miss))).
Proof.
  apply (SearchMovie_falls_back sample_params (start_of world_local_miss) []).
  - reflexivity.
  - constructor.
Defined.
